(** * LuaBundler ([scripts/bundle.js]): a shallow embedding and its properties

    The bundler reads an entry Lua file, follows [require("...")] calls
    textually, and emits one Lua file holding every module as a thunk in a
    [__BUNDLE] table, an [import] loader, a [game_require] bridge and the
    rewritten entry text.

    Conventions of the embedding:
    - a JavaScript string is a Rocq [string]; every [ascii] stands for one
      UTF-16 code unit below 256 (the Latin-1 range);
    - Node's [path] module is an interface ([NodePath]); a POSIX instance is
      given for the examples;
    - the file system is a finite map from path strings, exactly as they are
      handed to [fs], to nodes;
    - a thrown [Error] is a value of type [Error] whose [message] is rendered
      by [message]; exceptions propagate through [result];
    - the recursion of [loadModule] is bounded by a fuel argument, [None]
      meaning that the fuel ran out; fuel beyond the number of files is
      never used up ([loadModule_terminates]);
    - [console.warn] output (the type-definition diagnostic) is not part of the
      state: [warnOnTypeDefinitions] only prints. *)

From Stdlib Require Import Ascii String List Bool Arith Lia.
From stdpp Require Import base option list strings gmap.
Import ListNotations.

Local Open Scope stdpp_scope.

(** Let [simpl] and [cbn] compute the concatenation of strings. *)
#[global] Arguments String.append !s1 s2 : simpl nomatch.

(** ** JavaScript strings, arrays, sets and objects *)

Module JS.

(** [\w] of an ECMAScript regular expression (no [u] or [i] flag). *)
Definition isWordChar (c : ascii) : bool :=
  let n := nat_of_ascii c in
  ((48 <=? n) && (n <=? 57)) || ((65 <=? n) && (n <=? 90))
  || ((97 <=? n) && (n <=? 122)) || (n =? 95).

(** [\s] restricted to code units below 256: TAB, LF, VT, FF, CR, SP, NBSP. *)
Definition isSpace (c : ascii) : bool :=
  let n := nat_of_ascii c in
  ((9 <=? n) && (n <=? 13)) || (n =? 32) || (n =? 160).

(** [\b] between the code unit before the position and the one after. *)
Definition wordBoundary (prev next : option ascii) : bool :=
  xorb (from_option isWordChar false prev) (from_option isWordChar false next).

Definition head (s : string) : option ascii :=
  match s with String c _ => Some c | EmptyString => None end.

(** Matching a literal text at the start of [s]; the rest on success. *)
Fixpoint dropPrefix (p s : string) : option string :=
  match p with
  | EmptyString => Some s
  | String a p' =>
      match s with
      | String b s' => if Ascii.eqb a b then dropPrefix p' s' else None
      | EmptyString => None
      end
  end.

(** Greedy [\s*]. *)
Fixpoint skipSpaces (s : string) : string :=
  match s with
  | String c s' => if isSpace c then skipSpaces s' else s
  | EmptyString => s
  end.

(** [String.prototype.toLowerCase] on code units below 256. *)
Definition lowerChar (c : ascii) : ascii :=
  let n := nat_of_ascii c in
  if ((65 <=? n) && (n <=? 90))
     || ((192 <=? n) && (n <=? 222) && negb (n =? 215))
  then ascii_of_nat (n + 32) else c.

Fixpoint toLowerCase (s : string) : string :=
  match s with
  | EmptyString => EmptyString
  | String c s' => String (lowerChar c) (toLowerCase s')
  end.

(** [s.replace(/\\/g, '/')]. *)
Fixpoint backslashesToSlashes (s : string) : string :=
  match s with
  | EmptyString => EmptyString
  | String c s' =>
      String (if Ascii.eqb c "\"%char then "/"%char else c) (backslashesToSlashes s')
  end.

(** [Array.prototype.join]. *)
Fixpoint join (sep : string) (l : list string) : string :=
  match l with
  | [] => EmptyString
  | [x] => x
  | x :: l' => x +:+ sep +:+ join sep l'
  end.

(** [Array.prototype.includes] on an array of strings. *)
Definition includes (l : list string) (x : string) : bool :=
  bool_decide (x ∈ l).

(** [Array.prototype.push] and [pop] (the popped value is not used). *)
Definition push (l : list string) (x : string) : list string := l ++ [x].
Definition pop (l : list string) : list string := removelast l.

(** A [Set] of strings keeps its elements in insertion order. *)
Definition Set_has (s : list string) (x : string) : bool :=
  bool_decide (x ∈ s).
Definition Set_add (s : list string) (x : string) : list string :=
  if bool_decide (x ∈ s) then s else s ++ [x].

(** A plain object used as a map from strings to strings.  [Object.entries]
    lists own string keys in insertion order, after any key that is a
    canonical array index, and assigning to [__proto__] creates no own key;
    the keys stored by the bundler are relative paths of files that carry an
    extension, hence a dot, and are never of these two kinds, so the entries
    are kept as an insertion-ordered association list.  Assigning to a key
    that is present replaces its value in place. *)
Fixpoint Object_set (o : list (string * string)) (k v : string)
  : list (string * string) :=
  match o with
  | [] => [(k, v)]
  | (k', v') :: o' =>
      if bool_decide (k' = k) then (k, v) :: o'
      else (k', v') :: Object_set o' k v
  end.

Definition Object_keys (o : list (string * string)) : list string := o.*1.

End JS.

(** ** The two regular expressions of [parseAndTransform] *)

Module Regex.
Import JS.

(** The capture group (any run of code units other than a closing
    parenthesis) followed by the closing parenthesis: the capture runs up to
    the first closing parenthesis, and there is no match when none follows.
    Returns the capture and the text after the parenthesis. *)
Fixpoint captureArg (s : string) : option (string * string) :=
  match s with
  | EmptyString => None
  | String c s' =>
      if Ascii.eqb c ")"%char then Some (EmptyString, s')
      else match captureArg s' with
           | Some (a, r) => Some (String c a, r)
           | None => None
           end
  end.

(** One attempt of [requirePattern] at the current position, [prev] being
    the code unit before it: a word boundary, the word require, white space,
    an opening parenthesis, white space, the capture, a closing parenthesis.
    Both runs of white space are greedy; giving white space back never
    helps, since what follows the first run is a parenthesis and what
    follows the second accepts white space anyway. *)
Definition requirePattern_exec (prev : option ascii) (s : string)
  : option (string * string) :=
  if wordBoundary prev (head s) then
    match dropPrefix "require" s with
    | Some r1 =>
        match skipSpaces r1 with
        | String "("%char r2 => captureArg (skipSpaces r2)
        | _ => None
        end
    | None => None
    end
  else None.

(** What a global regular expression leaves of a text: the code units
    outside every match, and the capture of each match, in order. *)
Inductive piece :=
| Chr (c : ascii)
| Call (arg : string).

(** The matches of the [g] expression, left to right and not overlapping:
    after a match the search goes on behind its closing parenthesis. *)
Fixpoint scanFuel (fuel : nat) (prev : option ascii) (s : string)
  : list piece :=
  match fuel with
  | 0 => []
  | S fuel' =>
      match s with
      | EmptyString => []
      | String c s' =>
          match requirePattern_exec prev s with
          | Some (arg, rest) => Call arg :: scanFuel fuel' (Some ")"%char) rest
          | None => Chr c :: scanFuel fuel' (Some c) s'
          end
      end
  end.

Definition scanFrom (prev : option ascii) (s : string) : list piece :=
  scanFuel (String.length s) prev s.

Definition scan (s : string) : list piece := scanFrom None s.

Definition isQuote (c : ascii) : bool :=
  Ascii.eqb c "034"%char || Ascii.eqb c "'"%char.

(** A run of code units that are not quotes, then one quote, then the end
    of the input: the run. *)
Fixpoint quotedBody (s : string) : option string :=
  match s with
  | EmptyString => None
  | String c s' =>
      if isQuote c then
        match s' with EmptyString => Some EmptyString | _ => None end
      else match quotedBody s' with
           | Some b => Some (String c b)
           | None => None
           end
  end.

(** [arg.match(...)] with the pattern of [quotedMatch]: from the start of
    the input a quote, one or more code units that are not quotes (the
    capture), a quote, the end of the input.  The two quotes are matched by
    the same class and need not be equal. *)
Definition quotedMatch (arg : string) : option string :=
  match arg with
  | String q s' =>
      if isQuote q then
        match quotedBody s' with
        | Some (String c b) => Some (String c b)
        | _ => None
        end
      else None
  | EmptyString => None
  end.

End Regex.

(** ** Errors *)

Definition ESC : string := String "027"%char EmptyString.
Definition DQ : string := String "034"%char EmptyString.
Definition yellow : string := ESC +:+ "[33m".
Definition blue : string := ESC +:+ "[34m".
Definition green : string := ESC +:+ "[32m".
Definition red : string := ESC +:+ "[31m".
Definition reset : string := ESC +:+ "[0m".

(** The three [throw new Error(...)] sites of [bundleLua], named after the
    taxonomy of the specification. *)
Inductive Error :=
| ModuleNotFound (requiredPath referencing : string)
| CircularImport (moduleName previousPath : string)
| IoError (filePath errMessage : string).

Definition message (e : Error) : string :=
  match e with
  | ModuleNotFound requiredPath referencing =>
      "Cannot find module " +:+ yellow +:+ "'" +:+ requiredPath +:+ "' "
      +:+ reset +:+ "(at " +:+ blue +:+ referencing +:+ reset +:+ ")"
  | CircularImport moduleName previousPath =>
      "Circular import detected: " +:+ yellow +:+ "'" +:+ moduleName +:+ "' "
      +:+ reset +:+ "(at " +:+ blue +:+ previousPath +:+ reset +:+ ")"
  | IoError filePath errMessage =>
      "Could not read file at " +:+ blue +:+ filePath +:+ " " +:+ reset
      +:+ errMessage
  end.

Inductive result (A : Type) :=
| Ok (a : A)
| Throw (e : Error).
Arguments Ok {A} a.
Arguments Throw {A} e.

(** ** Node's [path] and [fs] *)

Class NodePath := {
  path_dirname : string -> string;
  path_resolve : string -> string -> string;
  path_extname : string -> string;
  path_relative : string -> string -> string;
  path_join : string -> string -> string
}.

Inductive node :=
| File (content : string)
| Directory.

Definition existsSync (fs : gmap string node) (p : string) : bool :=
  bool_decide (is_Some (fs !! p)).

(** [fs.readFileSync(p, 'utf8')]: the content, or the message of the error. *)
Definition readFileSync (fs : gmap string node) (p : string)
  : string + string :=
  match fs !! p with
  | Some (File content) => inl content
  | Some Directory => inr "EISDIR: illegal operation on a directory, read"
  | None => inr ("ENOENT: no such file or directory, open '" +:+ p +:+ "'")
  end.

(** The directories above [p], nearest first: [path.dirname] applied again
    and again.  Every step but the one at the root shortens the path, so
    as many steps as [p] has code units reach the root. *)
Fixpoint ancestors {np : NodePath} (n : nat) (p : string) : list string :=
  match n with
  | 0 => []
  | S n' => path_dirname p :: ancestors n' (path_dirname p)
  end.

Definition ancestorsOf {np : NodePath} (p : string) : list string :=
  ancestors (String.length p) p.

Definition isFile (fs : gmap string node) (p : string) : bool :=
  match fs !! p with
  | Some (File _) => true
  | _ => false
  end.

(** Whether [d] is a directory of the disk that [fs] describes: it is listed
    as one, or it is the root, or it is the working directory of the process
    ([path.resolve] of nothing) or above it, or a listed path lies below
    it. *)
Definition isDirectory {np : NodePath} (fs : gmap string node) (d : string)
  : bool :=
  match fs !! d with
  | Some Directory => true
  | _ =>
      let cwd := path_resolve EmptyString EmptyString in
      bool_decide (path_dirname d = d)
      || bool_decide (d ∈ cwd :: ancestorsOf cwd)
      || existsb (fun k => bool_decide (d ∈ ancestorsOf k)) (map_to_list fs).*1
  end.

Fixpoint trailingSlash (p : string) : bool :=
  match p with
  | EmptyString => false
  | String c EmptyString => Ascii.eqb c "/"%char
  | String _ p' => trailingSlash p'
  end.

(** [fs.writeFileSync(p, data, 'utf8')] on a POSIX system: the new file
    system, or the message of the error.  The file that is opened is the one
    at [path.resolve(p)]; opening fails when [p] is empty, when a file stands
    where a directory is needed, when the directory of the file does not
    exist, and when the path names a directory or ends with a slash.
    Otherwise the file is created or replaced, and with it every listed
    path that is another spelling of the same file.  Links and permissions
    are not part of the model. *)
Definition writeFileSync {np : NodePath} (fs : gmap string node)
    (p data : string) : string + gmap string node :=
  let target := path_resolve p EmptyString in
  let failure (code : string) : string + gmap string node :=
    inl (code +:+ ", open '" +:+ p +:+ "'") in
  if bool_decide (p = EmptyString) then
    failure "ENOENT: no such file or directory"
  else if existsb (isFile fs) (ancestorsOf target) then
    failure "ENOTDIR: not a directory"
  else if negb (isDirectory fs (path_dirname target)) then
    failure "ENOENT: no such file or directory"
  else if isDirectory fs target then
    failure "EISDIR: illegal operation on a directory"
  else if trailingSlash p then
    failure (if isFile fs target then "ENOTDIR: not a directory"
             else "EISDIR: illegal operation on a directory")
  else
    inr (<[p := File data]>
           (<[target := File data]>
              (map_imap
                 (fun k v =>
                    Some (if bool_decide (path_resolve k EmptyString = target)
                          then File data else v))
                 fs))).

(** ** [bundleLua] *)

Definition LF : string := String "010"%char EmptyString.
Definition version : string := "1.0.0".

(** The variables [visited] and [modules] that the closures of [bundleLua]
    share, and the trace of the [fs.readFileSync] calls made so far. *)
Record State := {
  visited : list string;
  modules : list (string * string);
  reads : list string
}.

Definition logRead (p : string) (st : State) : State :=
  {| visited := visited st; modules := modules st; reads := reads st ++ [p] |}.
Definition setModule (k v : string) (st : State) : State :=
  {| visited := visited st; modules := JS.Object_set (modules st) k v;
     reads := reads st |}.
Definition addVisited (p : string) (st : State) : State :=
  {| visited := JS.Set_add (visited st) p; modules := modules st;
     reads := reads st |}.

(** [for (const x of l) body(x)], threading the shared [stack] array and the
    state; an exception leaves the loop, and [None] is lack of fuel. *)
Fixpoint forEach
    (body : string -> list string -> State ->
            option (result (list string * State)))
    (l : list string) (stack : list string) (st : State)
  : option (result (list string * State)) :=
  match l with
  | [] => Some (Ok (stack, st))
  | x :: l' =>
      match body x stack st with
      | Some (Ok (stack', st')) => forEach body l' stack' st'
      | other => other
      end
  end.

(** The text of the generated loader, one array element per line. *)
Definition importLoader : list string :=
  [ "function import(name)";
    "  if __BUNDLE[name] then";
    "    if type(__BUNDLE[name]) == 'function' then";
    "      local result = __BUNDLE[name]()";
    "      __BUNDLE[name] = result";
    "      return result";
    "    else";
    "      return __BUNDLE[name]";
    "    end";
    "  else";
    "    error('Module " +:+ DQ +:+ "' .. name .. '" +:+ DQ
      +:+ " not found in bundle')";
    "  end";
    "end";
    EmptyString ].

Definition gameRequire : list string :=
  [ "function game_require(module, callback)";
    "  setthreadidentity(2)";
    "  local imported = require(module)";
    "  if typeof(callback) == 'function' and imported ~= nil then";
    "    callback(imported)";
    "  end";
    "  setthreadidentity(7)";
    "  if imported == nil then";
    "    error('Failed to require game module " +:+ DQ +:+ "' .. module .. '"
      +:+ DQ +:+ "')";
    "  else";
    "    return imported";
    "  end";
    "end";
    EmptyString ].

Definition header (dateString timeString : string) : list string :=
  [ "--";
    "-- LuaBundler v" +:+ version;
    "-- Bundled on " +:+ dateString +:+ " at " +:+ timeString;
    "-- @author discordrpc";
    "--";
    "--!nolint";
    "local __BUNDLE = {}";
    EmptyString ].

(** What the emission loop pushes for one entry of [modules]. *)
Definition thunkHeader (name : string) : string :=
  "__BUNDLE['" +:+ name +:+ "'] = function()".

Definition thunk (entry : string * string) : list string :=
  [ thunkHeader entry.1;
    entry.2;
    "end";
    EmptyString ].

(** The array [output] before it is joined. *)
Definition outputLines (dateString timeString : string)
    (modules : list (string * string)) (transformedEntry : string)
  : list string :=
  header dateString timeString
  ++ concat (map thunk modules)
  ++ importLoader
  ++ gameRequire
  ++ [ "-- Entry point"; transformedEntry ].

Section Bundler.
Context {np : NodePath} (fs : gmap string node) (baseDir : string).

Definition canonical (absolute : string) : string :=
  JS.backslashesToSlashes (path_relative baseDir absolute).

Definition resolveModulePath (currentFilePath requiredPath : string)
  : result string :=
  let currentDir := path_dirname currentFilePath in
  let absolute := path_resolve currentDir requiredPath in
  let extension := JS.toLowerCase (path_extname absolute) in
  let notFound :=
    Throw (ModuleNotFound requiredPath
             (path_resolve currentDir currentFilePath)) in
  match extension with
  | EmptyString =>
      if existsSync fs (absolute +:+ ".lua") then
        Ok (canonical (absolute +:+ ".lua"))
      else if existsSync fs (absolute +:+ ".luau") then
        Ok (canonical (absolute +:+ ".luau"))
      else notFound
  | _ =>
      if existsSync fs absolute then Ok (canonical absolute)
      else notFound
  end.

(** The arrow function handed to [replace]: [subModules] is the array it
    pushes to. *)
Definition replacer (currentFilePath arg : string) (subModules : list string)
  : result (string * list string) :=
  match Regex.quotedMatch arg with
  | Some requiredPath =>
      match resolveModulePath currentFilePath requiredPath with
      | Ok resolvedModule =>
          Ok ("import(" +:+ DQ +:+ resolvedModule +:+ DQ +:+ ")",
              JS.push subModules resolvedModule)
      | Throw e => Throw e
      end
  | None => Ok ("import(" +:+ arg +:+ ")", subModules)
  end.

(** [luaContent.replace(requirePattern, f)]: the replacer is called for
    each match, in order, and the pieces are put together again. *)
Fixpoint replacePieces (currentFilePath : string) (ps : list Regex.piece)
    (subModules : list string) : result (string * list string) :=
  match ps with
  | [] => Ok (EmptyString, subModules)
  | Regex.Chr c :: ps' =>
      match replacePieces currentFilePath ps' subModules with
      | Ok (out, subModules') => Ok (String c out, subModules')
      | Throw e => Throw e
      end
  | Regex.Call arg :: ps' =>
      match replacer currentFilePath arg subModules with
      | Ok (replacement, subModules1) =>
          match replacePieces currentFilePath ps' subModules1 with
          | Ok (out, subModules2) => Ok (replacement +:+ out, subModules2)
          | Throw e => Throw e
          end
      | Throw e => Throw e
      end
  end.

Definition parseAndTransform (luaContent currentFilePath : string)
  : result (string * list string) :=
  replacePieces currentFilePath (Regex.scan luaContent) [].

Fixpoint loadModule (fuel : nat) (moduleName : string)
    (stack : list string) (previousPath : string) (st : State)
  : option (result (list string * State)) :=
  match fuel with
  | 0 => None
  | S fuel' =>
      let modulePath := path_resolve baseDir moduleName in
      if JS.includes stack modulePath then
        Some (Throw (CircularImport moduleName previousPath))
      else if JS.Set_has (visited st) modulePath then Some (Ok (stack, st))
      else
        let stack1 := JS.push stack modulePath in
        match readFileSync fs modulePath with
        | inr errMessage => Some (Throw (IoError modulePath errMessage))
        | inl luaContent =>
            let st1 := logRead modulePath st in
            match parseAndTransform luaContent modulePath with
            | Throw e => Some (Throw e)
            | Ok (newContent, subModules) =>
                let st2 := setModule moduleName newContent st1 in
                match
                  forEach
                    (fun subModule stk s =>
                       loadModule fuel' subModule stk modulePath s)
                    subModules stack1 st2
                with
                | Some (Ok (stack2, st3)) =>
                    Some (Ok (JS.pop stack2, addVisited modulePath st3))
                | other => other
                end
            end
        end
  end.

(** [for (const subModule of entryImports) loadModule(subModule, [],
    entryPath)]: every call starts from a fresh stack. *)
Fixpoint loadEntryImports (fuel : nat) (entryImports : list string)
    (entryPath : string) (st : State) : option (result State) :=
  match entryImports with
  | [] => Some (Ok st)
  | subModule :: rest =>
      match loadModule fuel subModule [] entryPath st with
      | Some (Ok (_, st')) => loadEntryImports fuel rest entryPath st'
      | Some (Throw e) => Some (Throw e)
      | None => None
      end
  end.

Definition initialState : State :=
  {| visited := []; modules := []; reads := [] |}.

(** Everything [bundleLua] does before it builds [output]: the rewritten
    entry text and the final state. *)
Definition buildTable (fuel : nat) (entryFile : string)
  : option (result (string * State)) :=
  let entryPath := path_join baseDir entryFile in
  match readFileSync fs entryPath with
  | inr errMessage => Some (Throw (IoError entryPath errMessage))
  | inl entryContent =>
      let st1 := logRead entryPath initialState in
      match parseAndTransform entryContent entryPath with
      | Throw e => Some (Throw e)
      | Ok (transformedEntry, entryImports) =>
          match loadEntryImports fuel entryImports entryPath st1 with
          | Some (Ok st) => Some (Ok (transformedEntry, st))
          | Some (Throw e) => Some (Throw e)
          | None => None
          end
      end
  end.

(** [dateString] and [timeString] are what [new Date()] gives when the
    bundle is built. *)
Definition bundleLua (fuel : nat) (entryFile dateString timeString : string)
  : option (result string) :=
  match buildTable fuel entryFile with
  | Some (Ok (transformedEntry, st)) =>
      Some (Ok (JS.join LF
                  (outputLines dateString timeString (modules st)
                     transformedEntry)))
  | Some (Throw e) => Some (Throw e)
  | None => None
  end.

End Bundler.

(** ** The command line *)

Record Outcome := {
  exitCode : nat;
  consoleLine : string;
  disk : gmap string node
}.

Definition usage : string :=
  red +:+ "[ERROR] " +:+ reset +:+ "Incorrect usage" +:+ LF
  +:+ "    " +:+ LF
  +:+ yellow +:+ "node " +:+ reset +:+ "bundler.js " +:+ blue
  +:+ "<baseDir> <entryFile> <outputFile>" +:+ LF
  +:+ "    " +:+ yellow +:+ "<baseDir>" +:+ ESC
  +:+ "[90m - The base directory to start bundling from (e.g. ./src)" +:+ LF
  +:+ "    " +:+ yellow +:+ "<entryFile>" +:+ ESC
  +:+ "[90m - The entry file (e.g. main.luau)" +:+ LF
  +:+ "    " +:+ yellow +:+ "<outputFile>" +:+ ESC
  +:+ "[90m - The output file (e.g. ./bundle/output.luau)" +:+ reset.

(** The script body: [argv] is [process.argv].  The artifact is written only
    when [bundleLua] returns; whatever is thrown inside the [try] block is
    printed and the process exits with status 1. *)
Definition main {np : NodePath} (fuel : nat) (argv : list string)
    (dateString timeString : string) (fs : gmap string node)
  : option Outcome :=
  match argv with
  | _ :: _ :: baseDir :: entryFile :: outputFile :: _ =>
      match bundleLua fs baseDir fuel entryFile dateString timeString with
      | Some (Ok bundledLua) =>
          match writeFileSync fs outputFile bundledLua with
          | inr fs' =>
              Some {| exitCode := 0;
                      consoleLine :=
                        green +:+ "[SUCCESS] " +:+ reset
                        +:+ "Bundled Lua code written to " +:+ blue
                        +:+ outputFile +:+ reset;
                      disk := fs' |}
          | inl errMessage =>
              Some {| exitCode := 1;
                      consoleLine :=
                        red +:+ "[ERROR] " +:+ reset +:+ errMessage;
                      disk := fs |}
          end
      | Some (Throw e) =>
          Some {| exitCode := 1;
                  consoleLine := red +:+ "[ERROR] " +:+ reset +:+ message e;
                  disk := fs |}
      | None => None
      end
  | _ => Some {| exitCode := 1; consoleLine := usage; disk := fs |}
  end.

(** ** Node's [path] on POSIX, for the examples

    Written after the documented behaviour of [path.posix]; [cwd] is
    [process.cwd()], an absolute path. *)

Module Posix.

Definition isSlash (c : ascii) : bool := Ascii.eqb c "/"%char.

(** The segments between slashes, empty ones included. *)
Fixpoint split (s : string) : list string :=
  match s with
  | EmptyString => [EmptyString]
  | String c s' =>
      if isSlash c then EmptyString :: split s'
      else match split s' with
           | seg :: segs => String c seg :: segs
           | [] => [String c EmptyString]
           end
  end.

(** [normalizeString]: [acc] is the stack of kept segments, last first. *)
Fixpoint normalize (allowAboveRoot : bool) (segs acc : list string)
  : list string :=
  match segs with
  | [] => rev acc
  | seg :: segs' =>
      if bool_decide (seg = EmptyString) || bool_decide (seg = ".") then
        normalize allowAboveRoot segs' acc
      else if bool_decide (seg = "..") then
        match acc with
        | top :: acc' =>
            if bool_decide (top = "..") then
              normalize allowAboveRoot segs' (seg :: acc)
            else normalize allowAboveRoot segs' acc'
        | [] =>
            normalize allowAboveRoot segs'
              (if allowAboveRoot then [seg] else [])
        end
      else normalize allowAboveRoot segs' (seg :: acc)
  end.

Definition isAbsolute (s : string) : bool :=
  match s with String c _ => isSlash c | EmptyString => false end.

Definition resolveSegments (cwd a b : string) : list string :=
  if isAbsolute b then normalize false (split b) []
  else if isAbsolute a then normalize false (split a ++ split b) []
  else normalize false (split cwd ++ split a ++ split b) [].

Definition resolve (cwd a b : string) : string :=
  "/" +:+ JS.join "/" (resolveSegments cwd a b).

Fixpoint endsWithSlash (s : string) : bool :=
  match s with
  | EmptyString => false
  | String c EmptyString => isSlash c
  | String _ s' => endsWithSlash s'
  end.

Definition join (a b : string) : string :=
  let joined :=
    match a, b with
    | EmptyString, _ => b
    | _, EmptyString => a
    | _, _ => a +:+ "/" +:+ b
    end in
  match joined with
  | EmptyString => "."
  | _ =>
      let body := JS.join "/" (normalize (negb (isAbsolute joined))
                                 (split joined) []) in
      let body :=
        match body with
        | EmptyString => if isAbsolute joined then EmptyString else "."
        | _ => if endsWithSlash joined then body +:+ "/" else body
        end in
      if isAbsolute joined then "/" +:+ body else body
  end.

(** The text left of the last segment, trailing slashes aside. *)
Fixpoint dropEmpty (segs : list string) : list string :=
  match segs with
  | EmptyString :: segs' => dropEmpty segs'
  | _ => segs
  end.

Definition dropTrailingSlashes (segs : list string) : list string :=
  rev (dropEmpty (rev segs)).

Definition dirname (p : string) : string :=
  match p with
  | EmptyString => "."
  | _ =>
      match rev (dropTrailingSlashes (split p)) with
      | [] => "/"
      | _ :: before =>
          match JS.join "/" (rev before) with
          | EmptyString =>
              match before with
              | [] => if isAbsolute p then "/" else "."
              | _ => "/"
              end
          | d => d
          end
      end
  end.

Definition basename (p : string) : string :=
  match rev (dropTrailingSlashes (split p)) with
  | [] => EmptyString
  | b :: _ => b
  end.

(** The text from the last dot of [s] on, when there is one behind the
    first code unit. *)
Fixpoint lastDotSuffix (s : string) : option string :=
  match s with
  | EmptyString => None
  | String c s' =>
      match lastDotSuffix s' with
      | Some e => Some e
      | None => if Ascii.eqb c "."%char then Some s else None
      end
  end.

Definition extname (p : string) : string :=
  match basename p with
  | EmptyString => EmptyString
  | String c rest =>
      if bool_decide (String c rest = "..") then EmptyString
      else default EmptyString (lastDotSuffix rest)
  end.

Fixpoint stripCommon (from to : list string) : list string * list string :=
  match from, to with
  | f :: from', t :: to' =>
      if bool_decide (f = t) then stripCommon from' to' else (from, to)
  | _, _ => (from, to)
  end.

Definition relative (cwd from to : string) : string :=
  let '(up, down) :=
    stripCommon (resolveSegments cwd from EmptyString)
                (resolveSegments cwd to EmptyString) in
  JS.join "/" (map (fun _ => "..") up ++ down).

Definition posix (cwd : string) : NodePath :=
  {| path_dirname := dirname;
     path_resolve := resolve cwd;
     path_extname := extname;
     path_relative := relative cwd;
     path_join := join |}.

End Posix.

(** ** The module graph of a file tree *)

Section Graph.
Context {np : NodePath} (fs : gmap string node) (baseDir : string).

(** The canonical names a module file imports, in textual order: what
    [parseAndTransform] returns as [subModules] for the file at [p]. *)
Definition importsOf (p : string) : option (list string) :=
  match readFileSync fs p with
  | inl content =>
      match parseAndTransform fs baseDir content p with
      | Ok (_, subModules) => Some subModules
      | Throw _ => None
      end
  | inr _ => None
  end.

(** The same imports as absolute paths, the identity [loadModule] uses for
    [stack] and [visited]. *)
Definition depsOf (p : string) : option (list string) :=
  map (path_resolve baseDir) <$> importsOf p.

Definition edge (p q : string) : Prop :=
  exists ds, depsOf p = Some ds /\ q ∈ ds.

(** A cycle that can be reached from the entry file. *)
Definition cycleReachable (entryFile : string) : Prop :=
  exists p, tc edge (path_join baseDir entryFile) p /\ tc edge p p.

(** Every module that can be reached from the entry file, the entry
    included, can be read and has all its import literals resolved. *)
Definition wellFormedTree (entryFile : string) : Prop :=
  forall p, rtc edge (path_join baseDir entryFile) p -> is_Some (depsOf p).

(** Depth-first, first-occurrence discovery order, as the specification
    words it: a module is discovered the first time its absolute path is
    met, it is listed at that moment, and its imports are then followed in
    textual order.  [seen] holds the absolute paths discovered so far and
    [order] the canonical names listed so far. *)
Fixpoint discoverAll
    (visit : string -> list string -> list string ->
             option (list string * list string))
    (names : list string) (seen order : list string)
  : option (list string * list string) :=
  match names with
  | [] => Some (seen, order)
  | name :: names' =>
      match visit name seen order with
      | Some (seen', order') => discoverAll visit names' seen' order'
      | None => None
      end
  end.

Fixpoint discover (fuel : nat) (name : string) (seen order : list string)
  : option (list string * list string) :=
  match fuel with
  | 0 => None
  | S fuel' =>
      let p := path_resolve baseDir name in
      if bool_decide (p ∈ seen) then Some (seen, order)
      else
        match importsOf p with
        | Some imports =>
            discoverAll (discover fuel') imports (p :: seen) (order ++ [name])
        | None => None
        end
  end.

Definition discoveryOrder (fuel : nat) (entryFile : string)
  : option (list string) :=
  match importsOf (path_join baseDir entryFile) with
  | Some imports =>
      snd <$> discoverAll (discover fuel) imports [] []
  | None => None
  end.

End Graph.

(** ** The generated Lua code

    The loader [import] and the bridge [game_require] are emitted as text
    ([importLoader], [gameRequire]).  Their behaviour is embedded here over a
    small model of the Lua state they touch: the [__BUNDLE] table, the thread
    identity, and whatever else the host and the module bodies keep
    ([heap]).  A function value is a name; [call] gives the behaviour of each
    named function and [hostRequire] that of the host's [require]. *)

Module Lua.

Inductive value :=
| Nil
| Boolean (b : bool)
| Number (n : Z)
| Str (s : string)
| Function (f : nat).

Definition truthy (v : value) : bool :=
  match v with
  | Nil | Boolean false => false
  | _ => true
  end.

Definition type (v : value) : string :=
  match v with
  | Nil => "nil"
  | Boolean _ => "boolean"
  | Number _ => "number"
  | Str _ => "string"
  | Function _ => "function"
  end.

(** [t[k]]: an absent key reads as [nil]. *)
Definition index (t : gmap string value) (k : string) : value :=
  default Nil (t !! k).

(** [t[k] = v]: storing [nil] removes the key. *)
Definition assign (t : gmap string value) (k : string) (v : value)
  : gmap string value :=
  match v with
  | Nil => delete k t
  | _ => <[k := v]> t
  end.

(** What the generated code does that can be observed from outside. *)
Inductive event :=
| Called (f : nat) (args : list value)
| SetThreadIdentity (n : Z)
| HostRequire (module : string).

Section Semantics.
Context {heap : Type}.

Record world := {
  BUNDLE : gmap string value;
  identity : Z;
  store : heap
}.

Inductive outcome :=
| Returns (v : value) (w : world)
| Raises (msg : string) (w : world).

Context (call : nat -> list value -> world -> outcome)
        (hostRequire : string -> world -> outcome).

Definition setBundle (t : gmap string value) (w : world) : world :=
  {| BUNDLE := t; identity := identity w; store := store w |}.

Definition setthreadidentity (n : Z) (w : world) : world :=
  {| BUNDLE := BUNDLE w; identity := n; store := store w |}.

Definition worldOf (o : outcome) : world :=
  match o with Returns _ w | Raises _ w => w end.

(** [function import(name) ... end]. *)
Definition import (name : string) (w : world) : list event * outcome :=
  if truthy (index (BUNDLE w) name) then
    match index (BUNDLE w) name with
    | Function f =>
        match call f [] w with
        | Returns result w1 =>
            ([Called f []],
             Returns result (setBundle (assign (BUNDLE w1) name result) w1))
        | Raises msg w1 => ([Called f []], Raises msg w1)
        end
    | v => ([], Returns v w)
    end
  else
    ([], Raises ("Module " +:+ DQ +:+ name +:+ DQ +:+ " not found in bundle")
           w).

(** Two calls of the loader, one after the other; an error in the first
    ends the run. *)
Definition importTwice (name : string) (w : world)
  : list event * outcome * option outcome :=
  match import name w with
  | (ev1, Returns v1 w1) =>
      let '(ev2, o2) := import name w1 in
      (ev1 ++ ev2, Returns v1 w1, Some o2)
  | (ev1, Raises msg w1) => (ev1, Raises msg w1, None)
  end.

(** [function game_require(module, callback) ... end]. *)
Definition game_require (module : string) (callback : value) (w : world)
  : list event * outcome :=
  let w1 := setthreadidentity 2 w in
  match hostRequire module w1 with
  | Raises msg w2 => ([SetThreadIdentity 2; HostRequire module], Raises msg w2)
  | Returns imported w2 =>
      let afterCallback :=
        match callback, imported with
        | Function _, Nil => ([], Returns Nil w2)
        | Function f, _ => ([Called f [imported]], call f [imported] w2)
        | _, _ => ([], Returns Nil w2)
        end in
      match afterCallback with
      | (ev, Raises msg w3) =>
          ([SetThreadIdentity 2; HostRequire module] ++ ev, Raises msg w3)
      | (ev, Returns _ w3) =>
          let w4 := setthreadidentity 7 w3 in
          ([SetThreadIdentity 2; HostRequire module] ++ ev
             ++ [SetThreadIdentity 7],
           match imported with
           | Nil =>
               Raises ("Failed to require game module " +:+ DQ +:+ module
                       +:+ DQ) w4
           | _ => Returns imported w4
           end)
      end
  end.

End Semantics.

End Lua.

(** ** The runs of [loadModule] that return *)

Section Traversal.
Context {np : NodePath} (fs : gmap string node) (baseDir : string).

(** [Loads name stack st st']: the call [loadModule(name, stack, _)] made in
    state [st] returns in state [st'].  Either the module was visited
    before, or it is read, transformed, stored, its imports are loaded
    one after the other under the longer stack, and it is marked visited. *)
Inductive Loads : string -> list string -> State -> State -> Prop :=
| Loads_visited name stack st :
    path_resolve baseDir name ∉ stack ->
    path_resolve baseDir name ∈ visited st ->
    Loads name stack st st
| Loads_fresh name stack st luaContent newContent subModules st' :
    path_resolve baseDir name ∉ stack ->
    path_resolve baseDir name ∉ visited st ->
    readFileSync fs (path_resolve baseDir name) = inl luaContent ->
    parseAndTransform fs baseDir luaContent (path_resolve baseDir name)
    = Ok (newContent, subModules) ->
    LoadsAll subModules (stack ++ [path_resolve baseDir name])
      (setModule name newContent (logRead (path_resolve baseDir name) st))
      st' ->
    Loads name stack st (addVisited (path_resolve baseDir name) st')
with LoadsAll : list string -> list string -> State -> State -> Prop :=
| LoadsAll_nil stack st : LoadsAll [] stack st st
| LoadsAll_cons name names stack st st1 st2 :
    Loads name stack st st1 ->
    LoadsAll names stack st1 st2 ->
    LoadsAll (name :: names) stack st st2.

Scheme Loads_mut := Minimality for Loads Sort Prop
  with LoadsAll_mut := Minimality for LoadsAll Sort Prop.
Combined Scheme Loads_LoadsAll_ind from Loads_mut, LoadsAll_mut.

(** A list of absolute paths in which every path comes after all the
    modules it imports: the order in which [visited] is filled. *)
Inductive Postordered : list string -> Prop :=
| Postordered_nil : Postordered []
| Postordered_snoc V p ds :
    Postordered V ->
    p ∉ V ->
    depsOf fs baseDir p = Some ds ->
    (forall q, q ∈ ds -> q ∈ V) ->
    Postordered (V ++ [p]).

(** What holds of the table between two steps of the traversal: every key
    names a module that is being loaded or was visited; no two keys name
    the same file; the files read since [earlier] are those of the keys, in
    the order of the keys; every visited file has a key. *)
Definition tableInv (earlier stack : list string) (st : State) : Prop :=
  let paths := path_resolve baseDir <$> JS.Object_keys (modules st) in
  (forall p, p ∈ paths -> p ∈ stack \/ p ∈ visited st)
  /\ NoDup paths
  /\ reads st = earlier ++ paths
  /\ (forall q, q ∈ visited st -> q ∈ paths).

End Traversal.

(** ** Vocabulary of the statements *)

(** [c] occurs in [s]. *)
Fixpoint occurs (c : ascii) (s : string) : bool :=
  match s with
  | EmptyString => false
  | String x s' => Ascii.eqb x c || occurs c s'
  end.

Fixpoint allChars (P : ascii -> bool) (s : string) : bool :=
  match s with
  | EmptyString => true
  | String x s' => P x && allChars P s'
  end.

(** [sub] occurs in [s] as a contiguous piece of text. *)
Fixpoint contains (sub s : string) : bool :=
  String.prefix sub s
  || match s with
     | EmptyString => false
     | String _ s' => contains sub s'
     end.

(** What two consecutive stretches of a text contribute to the result of
    [parseAndTransform]: their rewritten texts one after the other, their
    dependency lists one after the other, and the first exception. *)
Definition andThen (r1 r2 : result (string * list string))
  : result (string * list string) :=
  match r1, r2 with
  | Ok (out1, subs1), Ok (out2, subs2) => Ok (out1 +:+ out2, subs1 ++ subs2)
  | Ok _, Throw e => Throw e
  | Throw e, _ => Throw e
  end.

(** The pieces of a text that holds no call site. *)
Fixpoint plain (s : string) : list Regex.piece :=
  match s with
  | EmptyString => []
  | String c s' => Regex.Chr c :: plain s'
  end.

(** ** Example trees *)

(** The number of places of [s] at which [sub] starts. *)
Fixpoint occurrences (sub s : string) : nat :=
  match s with
  | EmptyString => if String.prefix sub EmptyString then 1 else 0
  | String _ s' =>
      (if String.prefix sub s then 1 else 0) + occurrences sub s'
  end.



Module Examples.

Definition P : NodePath := Posix.posix "/home/dev".
Definition base : string := "/proj/src".

Definition tree (files : list (string * string)) : gmap string node :=
  list_to_map (prod_map id File <$> files).

(** [main.luau] imports [./util]; [util.lua] imports nothing. *)
Definition simple : gmap string node :=
  tree [ ("/proj/src/main.luau",
          "local util = require(" +:+ DQ +:+ "./util" +:+ DQ +:+ ")" +:+ LF
          +:+ "print(util.answer)");
         ("/proj/src/util.lua", "return { answer = 42 }") ].

(** The same tree without [util.lua]. *)
Definition missing : gmap string node :=
  tree [ ("/proj/src/main.luau",
          "local util = require(" +:+ DQ +:+ "./util" +:+ DQ +:+ ")" +:+ LF
          +:+ "print(util.answer)") ].

(** A imports B and C, B and C both import D. *)
Definition diamond : gmap string node :=
  tree [ ("/proj/src/a.lua", "local b = require('./b') local c = require('./c')");
         ("/proj/src/b.lua", "return require('./lib/d')");
         ("/proj/src/c.luau", "return require('./lib/d')");
         ("/proj/src/lib/d.lua", "return {}") ].

(** main imports a; a imports b and c; b and c both import d: the
    diamond sits below the first module, so that d is met a second time
    while a is still being loaded. *)
Definition nested : gmap string node :=
  tree [ ("/proj/src/main.lua", "return require('./a')");
         ("/proj/src/a.lua", "local b = require('./b') local c = require('./c')");
         ("/proj/src/b.lua", "return require('./lib/d')");
         ("/proj/src/c.luau", "return require('./lib/d')");
         ("/proj/src/lib/d.lua", "return {}") ].

(** main imports a, a imports b, b imports c, c imports a. *)
Definition cyclic : gmap string node :=
  tree [ ("/proj/src/main.lua", "require('./a')");
         ("/proj/src/a.lua", "require('./b')");
         ("/proj/src/b.lua", "require('./c')");
         ("/proj/src/c.lua", "require('./a')") ].

(** main imports m, which imports a file that does not exist, and then a,
    which sits on the cycle a, b, a. *)
Definition cyclicBroken : gmap string node :=
  tree [ ("/proj/src/main.lua", "require('./m') require('./a')");
         ("/proj/src/m.lua", "require('./nowhere')");
         ("/proj/src/a.lua", "require('./b')");
         ("/proj/src/b.lua", "require('./a')") ].

(** A base directory inside a directory whose name holds a dot; the entry
    imports the parent directory of its own directory. *)
Definition dotted : gmap string node :=
  <["/proj/v1.2" := Directory]>
    (tree [ ("/proj/v1.2/src/main.lua", "local up = require('..')") ]).


(** A call whose argument opens with a double quote, holds a single quote,
    and closes with a single quote. *)
Definition mixedQuotesText : string :=
  "local m = require(" +:+ DQ +:+ "it's')".

(** A call whose argument opens with a double quote and closes with a
    single quote, with no quote in between. *)
Definition mismatchedText : string :=
  "local m = require(" +:+ DQ +:+ "./util')".

(** What the build of [diamond] from [a.lua] leaves behind. *)
Definition diamondEntry : string :=
  "local b = import(" +:+ DQ +:+ "b.lua" +:+ DQ +:+ ") local c = import("
  +:+ DQ +:+ "c.luau" +:+ DQ +:+ ")".

Definition diamondState : State :=
  {| visited := [ "/proj/src/lib/d.lua"; "/proj/src/b.lua";
                  "/proj/src/c.luau" ];
     modules :=
       [ ("b.lua", "return import(" +:+ DQ +:+ "lib/d.lua" +:+ DQ +:+ ")");
         ("lib/d.lua", "return {}");
         ("c.luau", "return import(" +:+ DQ +:+ "lib/d.lua" +:+ DQ +:+ ")") ];
     reads := [ "/proj/src/a.lua"; "/proj/src/b.lua"; "/proj/src/lib/d.lua";
                "/proj/src/c.luau" ] |}.

(** The artifact built from [simple]. *)
Definition simpleArtifact : string :=
  JS.join LF
    ([ "--";
       "-- LuaBundler v1.0.0";
       "-- Bundled on 1/2/2025 at 10:00:00 AM";
       "-- @author discordrpc";
       "--";
       "--!nolint";
       "local __BUNDLE = {}";
       EmptyString;
       "__BUNDLE['util.lua'] = function()";
       "return { answer = 42 }";
       "end";
       EmptyString ]
     ++ importLoader ++ gameRequire
     ++ [ "-- Entry point";
          "local util = import(" +:+ DQ +:+ "util.lua" +:+ DQ +:+ ")" +:+ LF
          +:+ "print(util.answer)" ]).

End Examples.

(** ** Example Lua worlds *)

Module LuaExamples.
Import Lua.

(** The rest of the state is one number: a counter for the module bodies,
    and the place where the continuation below notes the thread identity it
    runs under. *)
Definition bump (w : @world nat) : @world nat :=
  {| BUNDLE := BUNDLE w; identity := identity w; store := S (store w) |}.

Definition noteIdentity (w : @world nat) : @world nat :=
  {| BUNDLE := BUNDLE w; identity := identity w;
     store := Z.to_nat (identity w) |}.

(** The functions of the examples.
    - 0: a module body that counts its runs and returns the count;
    - 1: a module body that counts its runs and returns nothing;
    - 2: a module body that counts its runs and returns function 3;
    - 3: a function that returns 42;
    - 4: a continuation that notes the thread identity;
    - any other name: a function that raises an error. *)
Definition call (f : nat) (args : list value) (w : @world nat)
  : @outcome nat :=
  match f with
  | 0 => Returns (Number (Z.of_nat (S (store w)))) (bump w)
  | 1 => Returns Nil (bump w)
  | 2 => Returns (Function 3) (bump w)
  | 3 => Returns (Number 42) w
  | 4 => Returns Nil (noteIdentity w)
  | _ => Raises "boom" w
  end.

(** The host knows one module, [Players]; it has no value for [Nothing] and
    raises an error for any other name. *)
Definition hostRequire (module : string) (w : @world nat) : @outcome nat :=
  if bool_decide (module = "Players") then Returns (Str "players") w
  else if bool_decide (module = "Nothing") then Returns Nil w
  else Raises "unknown game module" w.

Definition bundle : gmap string value :=
  list_to_map [ ("counter.lua", Function 0);
                ("silent.lua", Function 1);
                ("factory.lua", Function 2) ].

Definition start : @world nat :=
  {| BUNDLE := bundle; identity := 8; store := 0 |}.

Definition valueOf (o : @outcome nat) : option value :=
  match o with Returns v _ => Some v | Raises _ _ => None end.

Definition errorOf (o : @outcome nat) : option string :=
  match o with Returns _ _ => None | Raises msg _ => Some msg end.

End LuaExamples.

(** ** Tactics for the example trees *)

(** Membership in a list that is written out. *)
Ltac in_list :=
  repeat first [apply list_elem_of_here | apply list_elem_of_further].

(** One edge of the module graph of a tree that is written out. *)
Ltac edge_step :=
  eexists; split; [vm_compute; reflexivity | in_list].

(** ** The type-definition diagnostic

    [warnOnTypeDefinitions] prints one line per match of [typeRegex] in the
    text of a module and changes nothing else; it is embedded as the list of
    the lines it hands to [console.warn]. *)

Module TypeRegex.
Import JS.

(** One or more code units of white space, greedy. *)
Definition skipSpaces1 (s : string) : option string :=
  match s with
  | String c s' => if isSpace c then Some (skipSpaces s') else None
  | EmptyString => None
  end.

(** The longest run of letters, digits and underscores at the start of [s],
    and the rest. *)
Fixpoint takeWord (s : string) : string * string :=
  match s with
  | String c s' =>
      if isWordChar c then
        let '(w, r) := takeWord s' in (String c w, r)
      else (EmptyString, s)
  | EmptyString => (EmptyString, EmptyString)
  end.

(** The word type, white space, a name of one or more letters, digits and
    underscores (the second capture), optional white space, an equals sign.
    Every repetition is greedy, and none can give back a code unit that
    what follows it accepts. *)
Definition declaration (s : string) : option (string * string) :=
  match dropPrefix "type" s with
  | Some r1 =>
      match skipSpaces1 r1 with
      | Some r2 =>
          match takeWord r2 with
          | (EmptyString, _) => None
          | (name, r3) =>
              match skipSpaces r3 with
              | String "="%char rest => Some (name, rest)
              | _ => None
              end
          end
      | None => None
      end
  | None => None
  end.

(** The optional first capture, the word export and white space, is tried
    first; without it the declaration has to start at once. *)
Definition exportOrType (s : string) : option (bool * string * string) :=
  let withExport :=
    match dropPrefix "export" s with
    | Some r1 =>
        match skipSpaces1 r1 with
        | Some r2 => declaration r2
        | None => None
        end
    | None => None
    end in
  match withExport with
  | Some (name, rest) => Some (true, name, rest)
  | None =>
      match declaration s with
      | Some (name, rest) => Some (false, name, rest)
      | None => None
      end
  end.

(** The caret under the [m] flag: the start of the input or the position
    after a line terminator (LF or CR, below 256). *)
Definition lineStart (prev : option ascii) : bool :=
  match prev with
  | None => true
  | Some c => (nat_of_ascii c =? 10) || (nat_of_ascii c =? 13)
  end.

(** One attempt of [typeRegex] at the current position: the start of a line,
    or else one code unit of white space, and then the rest. *)
Definition typeRegex_exec (prev : option ascii) (s : string)
  : option (bool * string * string) :=
  let afterSpace :=
    match s with
    | String c s' => if isSpace c then exportOrType s' else None
    | EmptyString => None
    end in
  if lineStart prev then
    match exportOrType s with
    | Some m => Some m
    | None => afterSpace
    end
  else afterSpace.

(** The [while] loop over [typeRegex.exec]: [lastIndex] moves behind the
    equals sign of each match; the loop ends when no match is left. *)
Fixpoint typeMatchesFuel (fuel : nat) (prev : option ascii) (s : string)
  : list (bool * string) :=
  match fuel with
  | 0 => []
  | S fuel' =>
      match typeRegex_exec prev s with
      | Some (isExport, name, rest) =>
          (isExport, name) :: typeMatchesFuel fuel' (Some "="%char) rest
      | None =>
          match s with
          | String c s' => typeMatchesFuel fuel' (Some c) s'
          | EmptyString => []
          end
      end
  end.

Definition typeMatchesFrom (prev : option ascii) (s : string)
  : list (bool * string) :=
  typeMatchesFuel (S (String.length s)) prev s.

End TypeRegex.

(** The line of one warning. *)
Definition warnLine (filePath : string) (m : bool * string) : string :=
  yellow +:+ "[WARN] " +:+ reset
  +:+ (if m.1 then "Found exported type " else "Found type ")
  +:+ green +:+ "'" +:+ m.2 +:+ "' " +:+ reset +:+ "in module: " +:+ blue
  +:+ filePath +:+ reset.

Definition warnOnTypeDefinitions (luaContent filePath : string) : list string :=
  warnLine filePath <$> TypeRegex.typeMatchesFrom None luaContent.

(** ** More vocabulary of the statements *)

(** The texts between quotes of the call sites that the literal pattern
    accepts, in the order of the text. *)
Fixpoint literals (ps : list Regex.piece) : list string :=
  match ps with
  | [] => []
  | Regex.Chr _ :: ps' => literals ps'
  | Regex.Call arg :: ps' =>
      match Regex.quotedMatch arg with
      | Some lit => lit :: literals ps'
      | None => literals ps'
      end
  end.

(** The text put together again, [names] giving the resolved name of each
    literal in turn. *)
Fixpoint render (ps : list Regex.piece) (names : list string) : string :=
  match ps with
  | [] => EmptyString
  | Regex.Chr c :: ps' => String c (render ps' names)
  | Regex.Call arg :: ps' =>
      match Regex.quotedMatch arg, names with
      | Some _, name :: names' =>
          ("import(" +:+ DQ +:+ name +:+ DQ +:+ ")") +:+ render ps' names'
      | Some _, [] => render ps' []
      | None, _ => ("import(" +:+ arg +:+ ")") +:+ render ps' names
      end
  end.

(** Where an exception of a build comes from.  [root] is the file the
    search starts from.  An [IoError] names a file that [root] reaches and
    that cannot be read, with the message of the file system; a
    [ModuleNotFound] is what the transformer throws for the text of a file
    that [root] reaches; a [CircularImport] names a module and a file
    that [root] reaches, the file imports the module, and the module reaches
    the file. *)
Section Provenance.
Context {np : NodePath} (fs : gmap string node) (baseDir : string).

Inductive Origin (root : string) : Error -> Prop :=
| Origin_read p errMessage :
    rtc (edge fs baseDir) root p ->
    readFileSync fs p = inr errMessage ->
    Origin root (IoError p errMessage)
| Origin_resolve p content requiredPath ref :
    rtc (edge fs baseDir) root p ->
    readFileSync fs p = inl content ->
    parseAndTransform fs baseDir content p
    = Throw (ModuleNotFound requiredPath ref) ->
    Origin root (ModuleNotFound requiredPath ref)
| Origin_cycle from imports moduleName :
    rtc (edge fs baseDir) root from ->
    importsOf fs baseDir from = Some imports ->
    moduleName ∈ imports ->
    rtc (edge fs baseDir) (path_resolve baseDir moduleName) from ->
    Origin root (CircularImport moduleName from).

End Provenance.

(** Example texts for the diagnostic. *)
Definition typedText : string :=
  "export type Point = { x: number }" +:+ LF
  +:+ "type Alias = Point" +:+ LF
  +:+ "local type_name = 1".

(** * Properties *)

(** ** Strings *)

Lemma string_app_assoc (a b c : string) : (a +:+ b) +:+ c = a +:+ b +:+ c.
Proof. induction a as [|x a IH]; cbn; [done | by rewrite IH]. Qed.

Lemma string_app_nil_r (a : string) : a +:+ EmptyString = a.
Proof. induction a as [|x a IH]; cbn; [done | by rewrite IH]. Qed.

Lemma string_app_cons (x : ascii) (a b : string) :
  String x a +:+ b = String x (a +:+ b).
Proof. done. Qed.

Lemma string_length_app (a b : string) :
  String.length (a +:+ b) = String.length a + String.length b.
Proof. induction a as [|x a IH]; cbn; [done | by rewrite IH]. Qed.

Lemma toLowerCase_empty (s : string) :
  JS.toLowerCase s = EmptyString <-> s = EmptyString.
Proof. by destruct s. Qed.

Lemma backslashesToSlashes_clean (s : string) :
  occurs "\"%char (JS.backslashesToSlashes s) = false.
Proof.
  induction s as [|c s IH]; [done|]. cbn [JS.backslashesToSlashes occurs].
  rewrite IH, orb_false_r. destruct (Ascii.eqb_spec c "\"%char) as [->|Hc]; [done|].
  by apply Ascii.eqb_neq.
Qed.

(** ** The matcher *)

Module RegexFacts.
Import JS Regex.

Lemma dropPrefix_spec (p s r : string) :
  dropPrefix p s = Some r <-> s = p +:+ r.
Proof.
  revert s. induction p as [|a p IH]; intros s; cbn.
  - split; [by intros [= ->] | by intros ->].
  - destruct s as [|b s]; [done|].
    destruct (Ascii.eqb_spec a b) as [->|Hab].
    + rewrite IH. split; [by intros -> | by intros [= ->]].
    + split; [done | intros [= ? ?]; congruence].
Qed.

Lemma skipSpaces_length (s : string) :
  String.length (skipSpaces s) <= String.length s.
Proof.
  induction s as [|c s IH]; cbn; [done|]. destruct (isSpace c); cbn; lia.
Qed.

(** Skipping white space in front of a text that starts with none. *)
Lemma skipSpaces_app (ws s : string) :
  allChars isSpace ws = true ->
  from_option isSpace false (head s) = false ->
  skipSpaces (ws +:+ s) = s.
Proof.
  induction ws as [|c ws IH]; cbn; intros Hws Hs.
  - destruct s as [|x s]; [done|]. cbn in *. by rewrite Hs.
  - apply andb_true_iff in Hws as [-> Hws]. by apply IH.
Qed.

Lemma captureArg_intro (a r : string) :
  occurs ")"%char a = false ->
  captureArg (a +:+ String ")"%char r) = Some (a, r).
Proof.
  induction a as [|x a IH]; cbn; [done|].
  intros [Hx Ha]%orb_false_iff. rewrite Hx. by rewrite IH.
Qed.

Lemma captureArg_spec (s a r : string) :
  captureArg s = Some (a, r) <->
  s = a +:+ String ")"%char r /\ occurs ")"%char a = false.
Proof.
  split; [|intros [-> Ha]; by apply captureArg_intro].
  revert a. induction s as [|c s IH]; intros a; cbn; [done|].
  destruct (Ascii.eqb_spec c ")"%char) as [->|Hc].
  - by intros [= <- <-].
  - destruct (captureArg s) as [[a' r']|]; [|done].
    intros [= <- <-]. destruct (IH a' eq_refl) as [-> Ha']. split; [done|].
    cbn. rewrite Ha', orb_false_r. by apply Ascii.eqb_neq.
Qed.

Lemma captureArg_length (s a r : string) :
  captureArg s = Some (a, r) -> String.length r < String.length s.
Proof.
  intros [-> _]%captureArg_spec. rewrite string_length_app. cbn. lia.
Qed.

Lemma requirePattern_exec_length prev s arg rest :
  requirePattern_exec prev s = Some (arg, rest) ->
  String.length rest < String.length s.
Proof.
  unfold requirePattern_exec. destruct (wordBoundary _ _); [|done].
  destruct (dropPrefix "require" s) as [r1|] eqn:Hp; [|done].
  apply dropPrefix_spec in Hp as ->.
  destruct (skipSpaces r1) as [|c r2] eqn:Hr1; [done|].
  destruct (Ascii.eqb_spec c "("%char) as [->|Hc].
  - intros Hcap%captureArg_length.
    pose proof (skipSpaces_length r1) as H1.
    pose proof (skipSpaces_length r2) as H2.
    rewrite Hr1 in H1. rewrite string_length_app. cbn in *. lia.
  - destruct c as [[] [] [] [] [] [] [] []]; done.
Qed.

(** The text of a call site is matched as one: the word require at a word
    boundary, white space, a parenthesis, white space, an argument that
    holds no closing parenthesis and starts with no white space, and the
    closing parenthesis. *)
Lemma requirePattern_exec_site prev ws1 ws2 arg rest :
  from_option isWordChar false prev = false ->
  allChars isSpace ws1 = true ->
  allChars isSpace ws2 = true ->
  from_option isSpace false (head (arg +:+ String ")"%char rest)) = false ->
  occurs ")"%char arg = false ->
  requirePattern_exec prev
    ("require" +:+ ws1 +:+ String "("%char (ws2 +:+ arg +:+ String ")"%char rest))
  = Some (arg, rest).
Proof.
  intros Hprev Hws1 Hws2 Harg Hclose. unfold requirePattern_exec.
  cbn [head String.append]. unfold wordBoundary. rewrite Hprev. cbn [xorb from_option].
  replace (isWordChar "r"%char) with true by done. cbn [negb].
  assert (dropPrefix "require"
            ("require" +:+ ws1 +:+ String "("%char (ws2 +:+ arg +:+ String ")"%char rest))
          = Some (ws1 +:+ String "("%char (ws2 +:+ arg +:+ String ")"%char rest)))
    as Hdrop by (by apply dropPrefix_spec).
  cbn [String.append] in Hdrop. rewrite Hdrop.
  rewrite skipSpaces_app; [|done..].
  rewrite skipSpaces_app; [|done..].
  by apply captureArg_spec.
Qed.

(** Fuel equal to the length of the text is enough for the scan. *)
Lemma scanFuel_enough fuel prev s :
  String.length s <= fuel -> scanFuel fuel prev s = scanFrom prev s.
Proof.
  unfold scanFrom.
  remember (String.length s) as n eqn:Hn.
  revert fuel prev s Hn.
  induction n as [n IH] using lt_wf_ind. intros fuel prev s -> Hle.
  destruct s as [|c s]; [by destruct fuel|].
  destruct fuel as [|fuel]; [cbn in Hle; lia|].
  cbn [String.length scanFuel]. cbn [String.length] in Hle, IH.
  destruct (requirePattern_exec prev (String c s)) as [[arg rest]|] eqn:Hex.
  - apply requirePattern_exec_length in Hex. cbn [String.length] in Hex.
    f_equal.
    trans (scanFuel (String.length rest) (Some ")"%char) rest).
    + apply (IH (String.length rest)); [lia | done | lia].
    + symmetry. apply (IH (String.length rest)); [lia | done | lia].
  - f_equal. apply (IH (String.length s)); [lia | done | lia].
Qed.

Lemma scanFrom_nil prev : scanFrom prev EmptyString = [].
Proof. done. Qed.

Lemma scanFrom_call prev s arg rest :
  requirePattern_exec prev s = Some (arg, rest) ->
  scanFrom prev s = Call arg :: scanFrom (Some ")"%char) rest.
Proof.
  intros Hex. pose proof (requirePattern_exec_length _ _ _ _ Hex) as Hlen.
  destruct s as [|c s]; [cbn in Hlen; lia|].
  unfold scanFrom at 1. cbn [String.length scanFuel]. rewrite Hex. f_equal.
  apply scanFuel_enough. cbn in Hlen. lia.
Qed.

Lemma scanFrom_chr prev c s :
  requirePattern_exec prev (String c s) = None ->
  scanFrom prev (String c s) = Chr c :: scanFrom (Some c) s.
Proof.
  intros Hex. unfold scanFrom at 1. cbn [String.length scanFuel].
  by rewrite Hex.
Qed.

(** The literal pattern accepts exactly: a quote, a non-empty text free of
    quotes, a quote. *)
Lemma quotedBody_intro (b : string) (q : ascii) :
  isQuote q = true ->
  allChars (fun c => negb (isQuote c)) b = true ->
  quotedBody (b +:+ String q EmptyString) = Some b.
Proof.
  intros Hq. induction b as [|x b IH]; cbn; [by rewrite Hq|].
  intros [Hx Hb]%andb_true_iff. apply negb_true_iff in Hx. rewrite Hx.
  by rewrite IH.
Qed.

Lemma quotedBody_spec (s b : string) :
  quotedBody s = Some b <->
  exists q, s = b +:+ String q EmptyString /\ isQuote q = true
            /\ allChars (fun c => negb (isQuote c)) b = true.
Proof.
  split; [|intros (q & -> & Hq & Hb); by apply quotedBody_intro].
  revert b. induction s as [|c s IH]; intros b; cbn; [done|].
  destruct (isQuote c) eqn:Hc.
  - destruct s as [|c' s]; [|done]. intros [= <-]. by exists c.
  - destruct (quotedBody s) as [b'|]; [|done].
    intros [= <-]. destruct (IH b' eq_refl) as (q & -> & Hq & Hb').
    exists q. cbn. by rewrite Hc, Hb'.
Qed.

Lemma quotedMatch_spec (arg body : string) :
  quotedMatch arg = Some body <->
  exists q1 q2,
    arg = String q1 (body +:+ String q2 EmptyString)
    /\ isQuote q1 = true /\ isQuote q2 = true
    /\ body <> EmptyString
    /\ allChars (fun c => negb (isQuote c)) body = true.
Proof.
  unfold quotedMatch. split.
  - destruct arg as [|q s]; [done|]. destruct (isQuote q) eqn:Hq; [|done].
    destruct (quotedBody s) as [[|c b]|] eqn:Hb; [done| |done].
    intros [= <-]. apply quotedBody_spec in Hb as (q2 & -> & Hq2 & Hb).
    by exists q, q2.
  - intros (q1 & q2 & -> & Hq1 & Hq2 & Hne & Hbody). rewrite Hq1.
    rewrite quotedBody_intro by done. by destruct body.
Qed.

End RegexFacts.

(** ** The path resolver and the content transformer *)

Lemma prefix_app (sub b : string) : String.prefix sub (sub +:+ b) = true.
Proof.
  induction sub as [|y sub IH]; cbn; [by destruct b|].
  destruct (ascii_dec y y); [done | congruence].
Qed.

Lemma contains_here (sub s : string) :
  String.prefix sub s = true -> contains sub s = true.
Proof. intros Hp. destruct s; cbn [contains]; by rewrite Hp. Qed.

Lemma contains_app_l (sub a s : string) :
  contains sub s = true -> contains sub (a +:+ s) = true.
Proof.
  intros Hs. induction a as [|x a IH]; cbn [String.append contains]; [done|].
  rewrite IH. apply orb_true_r.
Qed.

Lemma contains_app (sub a b : string) : contains sub (a +:+ sub +:+ b) = true.
Proof. apply contains_app_l, contains_here, prefix_app. Qed.

Section Transformer.
Context {np : NodePath} (fs : gmap string node) (baseDir : string).


(** The only exception of the resolver is [ModuleNotFound], built from the
    literal and from the current file path resolved against its own
    directory. *)
Lemma resolveModulePath_throws cur lit e :
  resolveModulePath fs baseDir cur lit = Throw e ->
  e = ModuleNotFound lit (path_resolve (path_dirname cur) cur).
Proof.
  unfold resolveModulePath.
  repeat case_match; naive_solver.
Qed.

(** The array the replacer pushes to only grows at its end. *)
Lemma replacePieces_acc cur ps subs :
  replacePieces fs baseDir cur ps subs
  = andThen (Ok (EmptyString, subs)) (replacePieces fs baseDir cur ps []).
Proof.
  revert subs. induction ps as [|[c|arg] ps IH]; intros subs; cbn.
  - by rewrite app_nil_r.
  - rewrite IH. destruct (replacePieces fs baseDir cur ps []) as [[out new]|e]; cbn; done.
  - unfold replacer.
    destruct (Regex.quotedMatch arg) as [lit|].
    + destruct (resolveModulePath fs baseDir cur lit) as [r|e]; [|done].
      rewrite IH, (IH (JS.push [] r)).
      destruct (replacePieces fs baseDir cur ps []) as [[out new]|e]; cbn; [|done].
      unfold JS.push. by rewrite <-app_assoc.
    + rewrite IH. by destruct (replacePieces fs baseDir cur ps []) as [[out new]|e].
Qed.

Lemma replacePieces_app cur ps1 ps2 :
  replacePieces fs baseDir cur (ps1 ++ ps2) []
  = andThen (replacePieces fs baseDir cur ps1 []) (replacePieces fs baseDir cur ps2 []).
Proof.
  induction ps1 as [|[c|arg] ps1 IH]; cbn.
  - by destruct (replacePieces fs baseDir cur ps2 []) as [[out new]|e].
  - rewrite IH.
    destruct (replacePieces fs baseDir cur ps1 []) as [[o1 n1]|e1],
             (replacePieces fs baseDir cur ps2 []) as [[o2 n2]|e2]; done.
  - destruct (replacer fs baseDir cur arg []) as [[rep subs1]|e]; [|done].
    rewrite (replacePieces_acc cur (ps1 ++ ps2) subs1),
            (replacePieces_acc cur ps1 subs1), IH.
    destruct (replacePieces fs baseDir cur ps1 []) as [[o1 n1]|e1],
             (replacePieces fs baseDir cur ps2 []) as [[o2 n2]|e2]; cbn; try done.
    by rewrite string_app_assoc, app_assoc.
Qed.

Lemma parseAndTransform_site content cur before arg after :
  Regex.scan content = before ++ Regex.Call arg :: after ->
  parseAndTransform fs baseDir content cur
  = andThen (replacePieces fs baseDir cur before [])
      (andThen (replacer fs baseDir cur arg []) (replacePieces fs baseDir cur after [])).
Proof.
  intros Hscan. unfold parseAndTransform.
  rewrite Hscan, replacePieces_app. f_equal. cbn.
  destruct (replacer fs baseDir cur arg []) as [[rep subs1]|e]; [|done].
  rewrite replacePieces_acc.
  by destruct (replacePieces fs baseDir cur after []) as [[o2 n2]|e2].
Qed.

(** The transformer throws nothing but what the resolver throws. *)
Lemma replacePieces_throws cur ps subs e :
  replacePieces fs baseDir cur ps subs = Throw e ->
  exists lit ref, e = ModuleNotFound lit ref.
Proof.
  revert subs. induction ps as [|[c|arg] ps IH]; intros subs; cbn; [done| |].
  - destruct (replacePieces fs baseDir cur ps subs) as [[out new]|e'] eqn:Hps;
      [done|]. intros [= <-]. by eapply IH.
  - unfold replacer. destruct (Regex.quotedMatch arg) as [lit|].
    + destruct (resolveModulePath fs baseDir cur lit) as [r|e'] eqn:Hres.
      * destruct (replacePieces fs baseDir cur ps _) as [[out new]|e''] eqn:Hps;
          [done|]. intros [= <-]. by eapply IH.
      * intros [= <-]. apply resolveModulePath_throws in Hres. eauto.
    + destruct (replacePieces fs baseDir cur ps subs) as [[out new]|e'] eqn:Hps;
        [done|]. intros [= <-]. by eapply IH.
Qed.

Lemma parseAndTransform_throws content cur e :
  parseAndTransform fs baseDir content cur = Throw e ->
  exists lit ref, e = ModuleNotFound lit ref.
Proof. apply replacePieces_throws. Qed.

(** Text without call sites is copied and adds no dependency. *)
Lemma replacePieces_plain cur s : replacePieces fs baseDir cur (plain s) [] = Ok (s, []).
Proof. induction s as [|c s IH]; cbn; [done | by rewrite IH]. Qed.

(** C4, as amended.  Extension probing.  With [absolute] the import literal
    resolved against the directory of the importing file: when [absolute]
    carries no extension, [absolute.lua] is taken if it exists, otherwise
    [absolute.luau] if it exists, otherwise the resolver fails with
    [ModuleNotFound]; when [absolute] carries an extension, that exact file
    must exist, and the resolver fails with [ModuleNotFound] otherwise.
    Every path returned is the path of an existing file, made relative to the
    base directory, and holds no backslash. *)
Theorem resolveModulePath_probing (cur lit : string) :
  let absolute := path_resolve (path_dirname cur) lit in
  let primary := absolute +:+ ".lua" in
  let secondary := absolute +:+ ".luau" in
  (path_extname absolute = EmptyString ->
     (existsSync fs primary = true ->
        resolveModulePath fs baseDir cur lit = Ok (canonical baseDir primary))
     /\ (existsSync fs primary = false -> existsSync fs secondary = true ->
           resolveModulePath fs baseDir cur lit = Ok (canonical baseDir secondary))
     /\ (existsSync fs primary = false -> existsSync fs secondary = false ->
           exists ref, resolveModulePath fs baseDir cur lit
                       = Throw (ModuleNotFound lit ref)))
  /\ (path_extname absolute <> EmptyString ->
        (existsSync fs absolute = true ->
           resolveModulePath fs baseDir cur lit = Ok (canonical baseDir absolute))
        /\ (existsSync fs absolute = false ->
              exists ref, resolveModulePath fs baseDir cur lit
                          = Throw (ModuleNotFound lit ref)))
  /\ (forall name, resolveModulePath fs baseDir cur lit = Ok name ->
        exists file, existsSync fs file = true
                     /\ name = JS.backslashesToSlashes
                                 (path_relative baseDir file)
                     /\ occurs "\"%char name = false).
Proof.
  intros absolute primary secondary. unfold resolveModulePath.
  fold absolute. fold primary. fold secondary.
  split; [|split].
  - intros Hext. rewrite Hext. cbn.
    repeat split; [by intros -> | by intros -> -> | intros -> ->; eauto].
  - intros Hext.
    destruct (JS.toLowerCase (path_extname absolute)) eqn:Hlow.
    { apply (proj1 (toLowerCase_empty _)) in Hlow. by destruct Hext. }
    split; [by intros -> | intros ->; eauto].
  - intros name Hres.
    assert (forall file, existsSync fs file = true ->
              name = canonical baseDir file ->
              exists file, existsSync fs file = true
                /\ name = JS.backslashesToSlashes (path_relative baseDir file)
                /\ occurs "\"%char name = false) as Hok.
    { intros file Hex ->. exists file. repeat split; [done|].
      apply backslashesToSlashes_clean. }
    repeat case_match; simplify_eq; eauto.
Qed.


(** C10, as amended.  A call site whose argument is a quote character, one
    or more characters none of which is a quote, and a quote character, the
    two quotes being equal or not, is treated as a string literal: the text
    between the quotes goes to the path resolver, whose exception ends the
    transformation; otherwise the resolved name is appended to the
    dependency list and the call becomes [import] of that name in double
    quotes. *)
Theorem quoted_argument_is_resolved content cur before q1 body q2 after :
  Regex.scan content
  = before ++ Regex.Call (String q1 (body +:+ String q2 EmptyString)) :: after ->
  Regex.isQuote q1 = true ->
  Regex.isQuote q2 = true ->
  body <> EmptyString ->
  allChars (fun c => negb (Regex.isQuote c)) body = true ->
  parseAndTransform fs baseDir content cur
  = andThen (replacePieces fs baseDir cur before [])
      (andThen
         match resolveModulePath fs baseDir cur body with
         | Ok name => Ok ("import(" +:+ DQ +:+ name +:+ DQ +:+ ")", [name])
         | Throw e => Throw e
         end
         (replacePieces fs baseDir cur after [])).
Proof.
  intros Hscan Hq1 Hq2 Hne Hbody.
  rewrite (parseAndTransform_site _ _ _ _ _ Hscan).
  unfold replacer.
  assert (Regex.quotedMatch (String q1 (body +:+ String q2 EmptyString))
          = Some body) as ->.
  { apply RegexFacts.quotedMatch_spec. by exists q1, q2. }
  by destruct (resolveModulePath fs baseDir cur body).
Qed.

(** C5, as amended.  A [ModuleNotFound] error is built from the offending
    literal and one path, and its message shows both; the path is that of the
    referencing file whenever resolving that path against its own directory
    gives it back, as it does for an absolute path.  A [CircularImport] error
    is built from the canonical name of the module met again and the path of
    the module that imports it, and its message shows both.  Nothing else
    that depends on the tree goes into either message: no probed candidate
    and no chain. *)
Theorem error_context :
  (forall cur lit e,
      resolveModulePath fs baseDir cur lit = Throw e ->
      exists ref,
        e = ModuleNotFound lit ref
        /\ message e
           = "Cannot find module " +:+ yellow +:+ "'" +:+ lit +:+ "' " +:+ reset
             +:+ "(at " +:+ blue +:+ ref +:+ reset +:+ ")"
        /\ contains lit (message e) = true
        /\ contains ref (message e) = true
        /\ (path_resolve (path_dirname cur) cur = cur -> ref = cur))
  /\ (forall fuel moduleName stack previousPath st,
        path_resolve baseDir moduleName ∈ stack ->
        let e := CircularImport moduleName previousPath in
        loadModule fs baseDir (S fuel) moduleName stack previousPath st
        = Some (Throw e)
        /\ message e
           = "Circular import detected: " +:+ yellow +:+ "'" +:+ moduleName
             +:+ "' " +:+ reset +:+ "(at " +:+ blue +:+ previousPath
             +:+ reset +:+ ")"
        /\ contains moduleName (message e) = true
        /\ contains previousPath (message e) = true).
Proof.
  split.
  - intros cur lit e ->%resolveModulePath_throws.
    exists (path_resolve (path_dirname cur) cur).
    split; [done|]. split; [done|]. cbn [message]. split; [|split; [|done]].
    + do 2 apply contains_app_l. apply contains_app.
    + do 7 apply contains_app_l. apply contains_app.
  - intros fuel moduleName stack previousPath st Hin e. split.
    + cbn. unfold JS.includes. by rewrite bool_decide_eq_true_2.
    + split; [done|]. unfold e. cbn [message]. split.
      * do 2 apply contains_app_l. apply contains_app.
      * do 7 apply contains_app_l. apply contains_app.
Qed.

End Transformer.

(** *** The transformer on the example trees *)

Lemma resolveModulePath_probing_witness :
  path_extname (NodePath := Examples.P) "/proj/src/util" = EmptyString
  /\ existsSync Examples.simple "/proj/src/util.lua" = true
  /\ resolveModulePath (np := Examples.P) Examples.simple Examples.base
       "/proj/src/main.luau" "./util"
     = Ok "util.lua".
Proof.
  split; [reflexivity|]. split; [reflexivity|].
  destruct (resolveModulePath_probing (np := Examples.P) Examples.simple
              Examples.base "/proj/src/main.luau" "./util")
    as [Hprobe _].
  destruct (Hprobe eq_refl) as [Hprimary _].
  exact (Hprimary eq_refl).
Defined.

(** C4, as stated, fails: the literal [..] has no extension, neither
    candidate of the probing exists, and yet the resolver returns a path,
    because the directory the literal resolves to has a dot in its name and
    exists. *)
Lemma resolveModulePath_probing_counterexample :
  path_extname (NodePath := Examples.P) ".." = EmptyString
  /\ path_resolve (NodePath := Examples.P)
       (path_dirname (NodePath := Examples.P) "/proj/v1.2/src/main.lua") ".."
     = "/proj/v1.2"
  /\ existsSync Examples.dotted "/proj/v1.2.lua" = false
  /\ existsSync Examples.dotted "/proj/v1.2.luau" = false
  /\ resolveModulePath (np := Examples.P) Examples.dotted "/proj/v1.2/src"
       "/proj/v1.2/src/main.lua" ".."
     = Ok "..".
Proof. repeat split; vm_compute; reflexivity. Qed.



Lemma quoted_argument_is_resolved_witness :
  Regex.scan Examples.mismatchedText
  = plain "local m = "
    ++ Regex.Call (String "034"%char ("./util" +:+ String "'"%char EmptyString))
    :: []
  /\ parseAndTransform (np := Examples.P) Examples.simple Examples.base
       Examples.mismatchedText "/proj/src/main.luau"
     = Ok ("local m = import(" +:+ DQ +:+ "util.lua" +:+ DQ +:+ ")",
           ["util.lua"]).
Proof.
  split; [reflexivity|].
  exact (quoted_argument_is_resolved (np := Examples.P) Examples.simple
           Examples.base Examples.mismatchedText "/proj/src/main.luau"
           (plain "local m = ") "034"%char "./util" "'"%char []
           eq_refl eq_refl eq_refl ltac:(discriminate) eq_refl).
Defined.

(** C10, as stated, fails: the argument below starts with a double quote and
    ends with a single quote, yet a quote inside keeps the pattern from
    accepting it; it is forwarded as it stands and adds no dependency. *)
Lemma quoted_argument_counterexample :
  exists q1 q2 inner,
    Regex.scan Examples.mixedQuotesText
    = plain "local m = "
      ++ Regex.Call (String q1 (inner +:+ String q2 EmptyString)) :: []
    /\ Regex.isQuote q1 = true /\ Regex.isQuote q2 = true /\ q1 <> q2
    /\ parseAndTransform (np := Examples.P) Examples.simple Examples.base
         Examples.mixedQuotesText "/proj/src/main.luau"
       = Ok ("local m = import(" +:+ String q1 (inner +:+ String q2 EmptyString)
             +:+ ")", []).
Proof.
  exists "034"%char, "'"%char, "it's".
  split; [reflexivity|]. split; [reflexivity|]. split; [reflexivity|].
  split; [discriminate | reflexivity].
Qed.

Lemma error_context_witness :
  (resolveModulePath (np := Examples.P) Examples.missing Examples.base
     "/proj/src/main.luau" "./util"
   = Throw (ModuleNotFound "./util" "/proj/src/main.luau")
   /\ contains "./util"
        (message (ModuleNotFound "./util" "/proj/src/main.luau")) = true
   /\ contains "/proj/src/main.luau"
        (message (ModuleNotFound "./util" "/proj/src/main.luau")) = true)
  /\ ("/proj/src/a.lua" ∈ ["/proj/src/a.lua"; "/proj/src/b.lua"]
      /\ loadModule (np := Examples.P) Examples.cyclic Examples.base 1 "a.lua"
           ["/proj/src/a.lua"; "/proj/src/b.lua"] "/proj/src/b.lua"
           (initialState)
         = Some (Throw (CircularImport "a.lua" "/proj/src/b.lua"))).
Proof.
  destruct (error_context (np := Examples.P) Examples.missing Examples.base)
    as [Hnotfound _].
  destruct (error_context (np := Examples.P) Examples.cyclic Examples.base)
    as [_ Hcircular].
  split.
  - split; [reflexivity|].
    destruct (Hnotfound "/proj/src/main.luau" "./util" _ eq_refl)
      as (ref & He & _ & Hlit & Href & Hsame).
    injection He as <-. split; [exact Hlit | exact Href].
  - assert ("/proj/src/a.lua" ∈ ["/proj/src/a.lua"; "/proj/src/b.lua"]) as Hin
      by (apply list_elem_of_here).
    split; [exact Hin|].
    exact (proj1 (Hcircular 0 "a.lua" _ "/proj/src/b.lua" initialState Hin)).
Defined.

(** C5, as stated, fails on both counts.  With [util.lua] missing, the message
    names neither of the two files that were probed; on the cycle a, b, c, a
    the message names the module met again and the module importing it, and
    not the module in between. *)
Lemma error_context_counterexample :
  (exists e,
      buildTable (np := Examples.P) Examples.missing Examples.base 8 "main.luau"
      = Some (Throw e)
      /\ e = ModuleNotFound "./util" "/proj/src/main.luau"
      /\ existsSync Examples.missing "/proj/src/util.lua" = false
      /\ existsSync Examples.missing "/proj/src/util.luau" = false
      /\ contains "/proj/src/util.lua" (message e) = false
      /\ contains "util.lua" (message e) = false)
  /\ (exists e,
        buildTable (np := Examples.P) Examples.cyclic Examples.base 8 "main.lua"
        = Some (Throw e)
        /\ e = CircularImport "a.lua" "/proj/src/c.lua"
        /\ depsOf (np := Examples.P) Examples.cyclic Examples.base
             "/proj/src/a.lua" = Some ["/proj/src/b.lua"]
        /\ depsOf (np := Examples.P) Examples.cyclic Examples.base
             "/proj/src/b.lua" = Some ["/proj/src/c.lua"]
        /\ depsOf (np := Examples.P) Examples.cyclic Examples.base
             "/proj/src/c.lua" = Some ["/proj/src/a.lua"]
        /\ contains "b.lua" (message e) = false).
Proof.
  split; eexists; (split; [vm_compute; reflexivity|]); repeat split;
    vm_compute; reflexivity.
Qed.

(** ** The dependency graph builder *)

Lemma Object_keys_set_fresh o k v :
  k ∉ JS.Object_keys o -> JS.Object_keys (JS.Object_set o k v) = JS.Object_keys o ++ [k].
Proof.
  unfold JS.Object_keys. induction o as [|[k' v'] o IH]; cbn; [done|].
  intros [Hne Hk]%not_elem_of_cons. case_bool_decide; [congruence|].
  cbn. by rewrite IH.
Qed.

Lemma Object_keys_set_present o k v :
  k ∈ JS.Object_keys o -> JS.Object_keys (JS.Object_set o k v) = JS.Object_keys o.
Proof.
  unfold JS.Object_keys. induction o as [|[k' v'] o IH]; cbn.
  - by intros ?%elem_of_nil.
  - intros Hk. case_bool_decide as Heq; cbn; [by subst|].
    apply elem_of_cons in Hk as [->|Hk]; [done|]. by rewrite IH.
Qed.

(** The keys of an object are pairwise distinct, whatever is assigned. *)
Lemma Object_set_NoDup o k v :
  NoDup (JS.Object_keys o) -> NoDup (JS.Object_keys (JS.Object_set o k v)).
Proof.
  intros Hnd. destruct (decide (k ∈ JS.Object_keys o)) as [Hin|Hnot].
  - by rewrite Object_keys_set_present.
  - rewrite Object_keys_set_fresh by done.
    apply NoDup_app. split; [done|]. split; [|apply NoDup_singleton].
    intros x Hx ->%list_elem_of_singleton. done.
Qed.

Lemma Set_add_fresh s x : x ∉ s -> JS.Set_add s x = s ++ [x].
Proof. intros Hx. unfold JS.Set_add. by rewrite bool_decide_eq_false_2. Qed.

Lemma pop_push stack x : JS.pop (JS.push stack x) = stack.
Proof. unfold JS.pop, JS.push. apply removelast_last. Qed.

Section Builder.
Context {np : NodePath} (fs : gmap string node) (baseDir : string).

Local Abbreviation res := (path_resolve baseDir).

(** *** From the function to its runs *)

Lemma forEach_loadModule_sound fuel previousPath :
  (forall name stack st stack' st',
      loadModule fs baseDir fuel name stack previousPath st
      = Some (Ok (stack', st')) ->
      stack' = stack /\ Loads fs baseDir name stack st st') ->
  forall names stack st stack' st',
    forEach (fun subModule stk s =>
               loadModule fs baseDir fuel subModule stk previousPath s)
      names stack st = Some (Ok (stack', st')) ->
    stack' = stack /\ LoadsAll fs baseDir names stack st st'.
Proof.
  intros Hone names. induction names as [|name names IH];
    intros stack st stack' st'; cbn.
  - intros [= <- <-]. split; [done | constructor].
  - destruct (loadModule fs baseDir fuel name stack previousPath st)
      as [[[stack1 st1]|e]|] eqn:Hname; [|done..].
    apply Hone in Hname as [-> Hload]. intros [-> Hrest]%IH.
    split; [done|]. by econstructor.
Qed.

Lemma loadModule_sound fuel name stack previousPath st stack' st' :
  loadModule fs baseDir fuel name stack previousPath st
  = Some (Ok (stack', st')) ->
  stack' = stack /\ Loads fs baseDir name stack st st'.
Proof.
  revert name stack previousPath st stack' st'.
  induction fuel as [|fuel IH]; intros name stack previousPath st stack' st';
    [done|].
  cbn [loadModule]. unfold JS.includes, JS.Set_has.
  case_bool_decide as Hstack; [done|].
  case_bool_decide as Hvisited.
  { intros [= <- <-]. split; [done|]. by constructor. }
  destruct (readFileSync fs (res name)) as [luaContent|m] eqn:Hread; [|done].
  destruct (parseAndTransform fs baseDir luaContent (res name))
    as [[newContent subModules]|e] eqn:Hparse; [|done].
  destruct (forEach _ subModules _ _) as [[[stack2 st3]|e]|] eqn:Hloop;
    [|done..].
  apply forEach_loadModule_sound in Hloop as [-> Hall];
    [|intros ? ? ? ? ? Hsub; by apply IH in Hsub].
  intros [= <- <-]. rewrite pop_push. split; [done|]. by econstructor.
Qed.

Lemma loadEntryImports_sound fuel names entryPath st st' :
  loadEntryImports fs baseDir fuel names entryPath st = Some (Ok st') ->
  LoadsAll fs baseDir names [] st st'.
Proof.
  revert st. induction names as [|name names IH]; intros st; cbn.
  - intros [= <-]. constructor.
  - destruct (loadModule fs baseDir fuel name [] entryPath st)
      as [[[stack1 st1]|e]|] eqn:Hname; [|done..].
    apply loadModule_sound in Hname as [-> Hload]. intros Hrest%IH.
    by econstructor.
Qed.

(** A successful build read and transformed the entry, and then loaded
    its imports one after the other from an empty stack. *)
Lemma buildTable_sound fuel entryFile transformedEntry st :
  buildTable fs baseDir fuel entryFile = Some (Ok (transformedEntry, st)) ->
  exists entryContent entryImports,
    readFileSync fs (path_join baseDir entryFile) = inl entryContent
    /\ parseAndTransform fs baseDir entryContent (path_join baseDir entryFile)
       = Ok (transformedEntry, entryImports)
    /\ LoadsAll fs baseDir entryImports []
         (logRead (path_join baseDir entryFile) initialState) st.
Proof.
  unfold buildTable.
  destruct (readFileSync fs _) as [entryContent|m] eqn:Hread; [|done].
  destruct (parseAndTransform fs baseDir entryContent _)
    as [[t imports]|e] eqn:Hparse; [|done].
  destruct (loadEntryImports _ _ _ _ _ _) as [[st1|e]|] eqn:Hloop; [|done..].
  intros [= <- <-]. apply loadEntryImports_sound in Hloop. eauto.
Qed.

(** *** What a returning call does to [visited] *)

Lemma Loads_visited_grows :
  (forall name stack st st',
      Loads fs baseDir name stack st st' ->
      (exists new, visited st' = visited st ++ new
                   /\ forall q, q ∈ new -> (q ∉ stack) /\ (q ∉ visited st))
      /\ res name ∈ visited st'
      /\ (Postordered fs baseDir (visited st) ->
          Postordered fs baseDir (visited st')))
  /\ (forall names stack st st',
        LoadsAll fs baseDir names stack st st' ->
        (exists new, visited st' = visited st ++ new
                     /\ forall q, q ∈ new -> (q ∉ stack) /\ (q ∉ visited st))
        /\ (forall name, name ∈ names -> res name ∈ visited st')
        /\ (Postordered fs baseDir (visited st) ->
            Postordered fs baseDir (visited st'))).
Proof.
  apply Loads_LoadsAll_ind.
  - intros name stack st Hstack Hvisited. split; [|done].
    exists []. rewrite app_nil_r. split; [done|]. by intros q ?%elem_of_nil.
  - intros name stack st luaContent newContent subModules st'
      Hstack Hvisited Hread Hparse _ ((new & Hnew & Hfresh) & Hsubs & Hpost).
    cbn [visited setModule logRead] in Hnew, Hfresh, Hpost.
    assert (res name ∉ visited st') as Hnot.
    { rewrite Hnew. intros [?|Hin]%elem_of_app; [done|].
      apply Hfresh in Hin as [Hin _]. apply Hin, elem_of_app. right. left. }
    cbn [visited addVisited]. rewrite Set_add_fresh by done. split; [|split].
    + exists (new ++ [res name]). rewrite Hnew, app_assoc. split; [done|].
      intros q [Hq| ->%list_elem_of_singleton]%elem_of_app; [|done].
      apply Hfresh in Hq as [Hq ?]. split; [|done].
      intros ?. apply Hq, elem_of_app. by left.
    + apply elem_of_app. right. left.
    + intros HV. apply Postordered_snoc with (ds := res <$> subModules);
        [by apply Hpost | done | |].
      * unfold depsOf, importsOf. by rewrite Hread, Hparse.
      * intros q (sub & -> & Hsub)%list_elem_of_fmap. by apply Hsubs.
  - intros stack st. split; [|split; [|done]].
    + exists []. rewrite app_nil_r. split; [done|]. by intros q ?%elem_of_nil.
    + by intros name ?%elem_of_nil.
  - intros name names stack st st1 st2 _ ((new1 & Hnew1 & Hfresh1) & Hname & Hpost1)
      _ ((new2 & Hnew2 & Hfresh2) & Hnames & Hpost2).
    split; [|split].
    + exists (new1 ++ new2). rewrite Hnew2, Hnew1, app_assoc. split; [done|].
      intros q [Hq|Hq]%elem_of_app; [by apply Hfresh1|].
      apply Hfresh2 in Hq as [? Hq]. split; [done|].
      intros ?. apply Hq. rewrite Hnew1. apply elem_of_app. by left.
    + intros n [->|Hn]%elem_of_cons; [|by apply Hnames].
      rewrite Hnew2. apply elem_of_app. by left.
    + auto.
Qed.

(** *** A post-ordered list is closed under imports and holds no cycle *)

Lemma Postordered_edge V p q :
  Postordered fs baseDir V -> p ∈ V -> edge fs baseDir p q -> q ∈ V.
Proof.
  intros HV. revert p q. induction HV as [|V p0 ds HV IH Hnot Hdeps Hin];
    intros p q.
  - by intros ?%elem_of_nil.
  - intros [Hp| ->%list_elem_of_singleton]%elem_of_app (ds' & Hds' & Hq);
      apply elem_of_app; left.
    + apply (IH p q Hp). by exists ds'.
    + rewrite Hdeps in Hds'. injection Hds' as <-. by apply Hin.
Qed.

Lemma Postordered_closed V p q :
  Postordered fs baseDir V -> p ∈ V -> rtc (edge fs baseDir) p q -> q ∈ V.
Proof.
  intros HV Hp Hpq. induction Hpq as [|p r q Hpr _ IH]; [done|].
  apply IH. by apply (Postordered_edge V p r).
Qed.

Lemma Postordered_acyclic V p :
  Postordered fs baseDir V -> p ∈ V -> ~ tc (edge fs baseDir) p p.
Proof.
  intros HV. revert p. induction HV as [|V p0 ds HV IH Hnot Hdeps Hin];
    intros p.
  - by intros ?%elem_of_nil.
  - intros [Hp| ->%list_elem_of_singleton]%elem_of_app Hcycle.
    + by apply (IH p Hp).
    + apply Hnot.
      inversion Hcycle as [? ? Hstep|? r ? Hstep Hrest]; subst.
      * destruct Hstep as (ds' & Hds' & Hq). rewrite Hdeps in Hds'.
        injection Hds' as <-. by apply Hin.
      * destruct Hstep as (ds' & Hds' & Hq). rewrite Hdeps in Hds'.
        injection Hds' as <-.
        apply (Postordered_closed V r p0 HV (Hin r Hq)). by apply tc_rtc.
Qed.

(** *** A build that returns found no cycle *)

Lemma depsOf_entry entryPath entryContent transformedEntry entryImports :
  readFileSync fs entryPath = inl entryContent ->
  parseAndTransform fs baseDir entryContent entryPath
  = Ok (transformedEntry, entryImports) ->
  depsOf fs baseDir entryPath = Some (res <$> entryImports).
Proof. intros Hread Hparse. unfold depsOf, importsOf. by rewrite Hread, Hparse. Qed.

Lemma buildTable_visited fuel entryFile transformedEntry st :
  buildTable fs baseDir fuel entryFile = Some (Ok (transformedEntry, st)) ->
  Postordered fs baseDir (visited st)
  /\ forall p, tc (edge fs baseDir) (path_join baseDir entryFile) p ->
               p ∈ visited st.
Proof.
  intros (content & imports & Hread & Hparse & Hall)%buildTable_sound.
  pose proof (depsOf_entry _ _ _ _ Hread Hparse) as Hdeps.
  destruct (proj2 Loads_visited_grows _ _ _ _ Hall) as (_ & Hroots & Hpost).
  specialize (Hpost (Postordered_nil _ _)). split; [done|].
  assert (forall r, edge fs baseDir (path_join baseDir entryFile) r ->
                    r ∈ visited st) as Hfirst.
  { intros r (ds & Hds & Hr). rewrite Hdeps in Hds. injection Hds as <-.
    apply list_elem_of_fmap in Hr as (name & -> & Hname). by apply Hroots. }
  intros p Hp. inversion Hp as [? ? Hstep|? r ? Hstep Hrest]; subst.
  - by apply Hfirst.
  - apply (Postordered_closed (visited st) r p Hpost (Hfirst r Hstep)).
    by apply tc_rtc.
Qed.

Lemma buildTable_acyclic fuel entryFile transformedEntry st :
  buildTable fs baseDir fuel entryFile = Some (Ok (transformedEntry, st)) ->
  ~ cycleReachable fs baseDir entryFile.
Proof.
  intros [Hpost Hreach]%buildTable_visited (p & Hp & Hcycle).
  by apply (Postordered_acyclic (visited st) p Hpost (Hreach p Hp)).
Qed.

(** *** Fuel beyond the number of files is never used up *)

Lemma stack_bound (stack : list string) :
  NoDup stack -> (forall q, q ∈ stack -> is_Some (fs !! q)) ->
  length stack <= size fs.
Proof.
  intros Hnd Hdom. rewrite <-(size_dom (D := gset string)).
  rewrite <-(size_list_to_set (C := gset string) stack) by done.
  apply subseteq_size. intros q Hq%elem_of_list_to_set.
  by apply elem_of_dom, Hdom.
Qed.

Lemma readFileSync_inl p content :
  readFileSync fs p = inl content -> fs !! p = Some (File content).
Proof. unfold readFileSync. by repeat case_match; intros [= <-]. Qed.

Lemma loadModule_terminates fuel name stack previousPath st :
  NoDup stack -> (forall q, q ∈ stack -> is_Some (fs !! q)) ->
  size fs < fuel + length stack ->
  is_Some (loadModule fs baseDir fuel name stack previousPath st).
Proof.
  revert name stack previousPath st.
  induction fuel as [|fuel IH]; intros name stack previousPath st Hnd Hdom Hfuel.
  { pose proof (stack_bound stack Hnd Hdom). cbn in Hfuel. lia. }
  cbn [loadModule]. unfold JS.includes, JS.Set_has.
  case_bool_decide as Hstack; [done|].
  case_bool_decide as Hvisited; [done|].
  destruct (readFileSync fs (res name)) as [luaContent|m] eqn:Hread; [|done].
  destruct (parseAndTransform fs baseDir luaContent (res name))
    as [[newContent subModules]|e]; [|done].
  apply readFileSync_inl in Hread.
  assert (NoDup (JS.push stack (res name))) as Hnd1.
  { apply NoDup_app. split; [done|]. split; [|apply NoDup_singleton].
    by intros x Hx ->%list_elem_of_singleton. }
  assert (forall q, q ∈ JS.push stack (res name) -> is_Some (fs !! q)) as Hdom1.
  { intros q [?| ->%list_elem_of_singleton]%elem_of_app; [by apply Hdom | done]. }
  assert (size fs < fuel + length (JS.push stack (res name))) as Hfuel1.
  { unfold JS.push. rewrite length_app. cbn in *. lia. }
  generalize (setModule name newContent (logRead (res name) st)) as st2.
  revert Hnd1 Hdom1 Hfuel1. generalize (JS.push stack (res name)) as stack1.
  intros stack1 Hnd1 Hdom1 Hfuel1 st2.
  enough (is_Some (forEach
            (fun subModule stk s =>
               loadModule fs baseDir fuel subModule stk (res name) s)
            subModules stack1 st2)) as [[[stack2 st3]|e] ->]; [done..|].
  revert st2. induction subModules as [|sub subs IHsubs]; intros st2; cbn; [done|].
  destruct (IH sub stack1 (res name) st2 Hnd1 Hdom1 Hfuel1) as [r Hr].
  rewrite Hr. destruct r as [[stack2 st3]|e]; [|done].
  apply loadModule_sound in Hr as [-> _]. apply IHsubs.
Qed.

Lemma buildTable_terminates fuel entryFile :
  size fs < fuel -> is_Some (buildTable fs baseDir fuel entryFile).
Proof.
  intros Hfuel. unfold buildTable.
  destruct (readFileSync fs _) as [entryContent|m]; [|done].
  destruct (parseAndTransform fs baseDir entryContent _)
    as [[t imports]|e]; [|done].
  generalize (logRead (path_join baseDir entryFile) initialState) as st.
  enough (forall st, is_Some (loadEntryImports fs baseDir fuel imports
                                (path_join baseDir entryFile) st)) as Hloop.
  { intros st. by destruct (Hloop st) as [[st'|e] ->]. }
  induction imports as [|name names IH]; intros st; cbn; [done|].
  destruct (loadModule_terminates fuel name [] (path_join baseDir entryFile) st)
    as [r Hr]; [constructor | by intros q ?%elem_of_nil | cbn; lia |].
  rewrite Hr. destruct r as [[stack1 st1]|e]; [apply IH | done].
Qed.

(** *** More fuel changes nothing *)

Lemma loadModule_fuel_mono fuel fuel' name stack previousPath st r :
  loadModule fs baseDir fuel name stack previousPath st = Some r ->
  fuel <= fuel' ->
  loadModule fs baseDir fuel' name stack previousPath st = Some r.
Proof.
  revert fuel' name stack previousPath st r.
  induction fuel as [|fuel IH]; intros fuel' name stack previousPath st r;
    [done|].
  intros Hrun Hle. destruct fuel' as [|fuel']; [lia|].
  cbn [loadModule] in *.
  destruct (JS.includes stack (res name)); [done|].
  destruct (JS.Set_has (visited st) (res name)); [done|].
  destruct (readFileSync fs (res name)) as [luaContent|m]; [|done].
  destruct (parseAndTransform fs baseDir luaContent (res name))
    as [[newContent subModules]|e]; [|done].
  assert (forall subs stack1 st2 r1,
             forEach (fun subModule stk s =>
                        loadModule fs baseDir fuel subModule stk (res name) s)
               subs stack1 st2 = Some r1 ->
             forEach (fun subModule stk s =>
                        loadModule fs baseDir fuel' subModule stk (res name) s)
               subs stack1 st2 = Some r1) as Hloop.
  { induction subs as [|sub subs IHsubs]; intros stack1 st2 r1; cbn; [done|].
    destruct (loadModule fs baseDir fuel sub stack1 (res name) st2)
      as [r2|] eqn:Hsub; [|done].
    rewrite (IH fuel' _ _ _ _ _ Hsub) by lia.
    destruct r2 as [[stack2 st3]|e]; [apply IHsubs | done]. }
  destruct (forEach _ subModules _ _) as [r1|] eqn:Hsubs; [|by destruct r].
  rewrite (Hloop _ _ _ _ Hsubs). done.
Qed.

Lemma buildTable_fuel_mono fuel fuel' entryFile r :
  buildTable fs baseDir fuel entryFile = Some r ->
  fuel <= fuel' ->
  buildTable fs baseDir fuel' entryFile = Some r.
Proof.
  unfold buildTable. intros Hrun Hle.
  destruct (readFileSync fs _) as [entryContent|m]; [|done].
  destruct (parseAndTransform fs baseDir entryContent _)
    as [[t imports]|e]; [|done].
  revert Hrun.
  generalize (logRead (path_join baseDir entryFile) initialState) as st.
  assert (forall st r1,
             loadEntryImports fs baseDir fuel imports
               (path_join baseDir entryFile) st = Some r1 ->
             loadEntryImports fs baseDir fuel' imports
               (path_join baseDir entryFile) st = Some r1) as Hloop.
  { induction imports as [|name names IH]; intros st r1; cbn; [done|].
    destruct (loadModule fs baseDir fuel name [] _ st) as [r2|] eqn:Hname;
      [|done].
    rewrite (loadModule_fuel_mono _ fuel' _ _ _ _ _ Hname) by lia.
    destruct r2 as [[stack1 st1]|e]; [apply IH | done]. }
  intros st.
  destruct (loadEntryImports fs baseDir fuel imports _ st) as [r1|] eqn:Hall;
    [|done].
  by rewrite (Hloop _ _ Hall).
Qed.

(** *** In a well-formed tree the only exception is [CircularImport] *)

Lemma depsOf_Some p :
  is_Some (depsOf fs baseDir p) ->
  exists content newContent subModules,
    readFileSync fs p = inl content
    /\ parseAndTransform fs baseDir content p = Ok (newContent, subModules)
    /\ depsOf fs baseDir p = Some (res <$> subModules).
Proof.
  unfold depsOf, importsOf. intros [ds Hds].
  destruct (readFileSync fs p) as [content|m]; [|done].
  destruct (parseAndTransform fs baseDir content p)
    as [[newContent subModules]|e] eqn:Hparse; [|done].
  by exists content, newContent, subModules.
Qed.

Lemma loadModule_throws fuel name stack previousPath st e :
  (forall q, rtc (edge fs baseDir) (res name) q ->
             is_Some (depsOf fs baseDir q)) ->
  loadModule fs baseDir fuel name stack previousPath st = Some (Throw e) ->
  exists moduleName from active,
    e = CircularImport moduleName from
    /\ stack `prefix_of` active
    /\ res moduleName ∈ active.
Proof.
  revert name stack previousPath st.
  induction fuel as [|fuel IH]; intros name stack previousPath st Hwf; [done|].
  cbn [loadModule]. unfold JS.includes, JS.Set_has.
  case_bool_decide as Hstack.
  { intros [= <-]. by exists name, previousPath, stack. }
  case_bool_decide as Hvisited; [done|].
  destruct (depsOf_Some (res name)) as (content & newContent & subModules
                                        & -> & -> & Hdeps);
    [by apply Hwf|].
  assert (forall sub, sub ∈ subModules ->
            forall q, rtc (edge fs baseDir) (res sub) q ->
                      is_Some (depsOf fs baseDir q)) as Hsubs.
  { intros sub Hsub q Hq. apply Hwf. eapply rtc_l; [|done].
    exists (res <$> subModules). split; [done|].
    by apply list_elem_of_fmap_2. }
  generalize (setModule name newContent (logRead (res name) st)) as st2.
  assert (stack `prefix_of` JS.push stack (res name)) as Hprefix
    by (by apply prefix_app_r).
  revert Hprefix. generalize (JS.push stack (res name)) as stack1.
  clear Hdeps. intros stack1 Hprefix st2.
  destruct (forEach _ subModules _ _) as [[[stack2 st3]|e']|] eqn:Hloop;
    [done| |done].
  intros [= ->]. revert st2 Hloop.
  induction subModules as [|sub subs IHsubs]; intros st2; cbn; [done|].
  destruct (loadModule fs baseDir fuel sub stack1 (res name) st2)
    as [[[stack2 st3]|e']|] eqn:Hsub; [| |done].
  - apply loadModule_sound in Hsub as [-> _].
    apply IHsubs. intros s Hs. apply Hsubs. by right.
  - intros [= ->].
    destruct (IH sub stack1 (res name) st2) as (n & from & active & -> & Hpre & Hin);
      [apply Hsubs; by left | done |].
    exists n, from, active. split; [done|]. split; [by etrans | done].
Qed.

Lemma buildTable_throws fuel entryFile e :
  wellFormedTree fs baseDir entryFile ->
  buildTable fs baseDir fuel entryFile = Some (Throw e) ->
  exists moduleName from (active : list string),
    e = CircularImport moduleName from /\ res moduleName ∈ active.
Proof.
  intros Hwf. unfold buildTable.
  destruct (depsOf_Some (path_join baseDir entryFile))
    as (content & t & imports & -> & -> & Hdeps); [by apply Hwf|].
  assert (forall name, name ∈ imports ->
            forall q, rtc (edge fs baseDir) (res name) q ->
                      is_Some (depsOf fs baseDir q)) as Hsubs.
  { intros name Hname q Hq. apply Hwf. eapply rtc_l; [|done].
    exists (res <$> imports). split; [done|]. by apply list_elem_of_fmap_2. }
  clear Hdeps.
  generalize (logRead (path_join baseDir entryFile) initialState) as st.
  induction imports as [|name names IH]; intros st; cbn; [done|].
  destruct (loadModule fs baseDir fuel name [] _ st)
    as [[[stack1 st1]|e']|] eqn:Hname; [| |done].
  - apply IH. intros n Hn. apply Hsubs. by right.
  - intros [= ->].
    destruct (loadModule_throws _ _ _ _ _ _ (Hsubs name ltac:(left)) Hname)
      as (n & from & active & -> & _ & Hin).
    by exists n, from, active.
Qed.

(** *** [CircularImport] is raised for cycles only *)

Lemma loadModule_circular fuel name stack previousPath st moduleName from :
  (forall q, q ∈ stack -> tc (edge fs baseDir) q (res name)) ->
  loadModule fs baseDir fuel name stack previousPath st
  = Some (Throw (CircularImport moduleName from)) ->
  rtc (edge fs baseDir) (res name) (res moduleName)
  /\ tc (edge fs baseDir) (res moduleName) (res moduleName).
Proof.
  revert name stack previousPath st.
  induction fuel as [|fuel IH]; intros name stack previousPath st Hstack; [done|].
  cbn [loadModule]. unfold JS.includes, JS.Set_has.
  case_bool_decide as Hin.
  { intros [= <- <-]. split; [done | by apply Hstack]. }
  case_bool_decide as Hvisited; [done|].
  destruct (readFileSync fs (res name)) as [luaContent|m] eqn:Hread; [|done].
  destruct (parseAndTransform fs baseDir luaContent (res name))
    as [[newContent subModules]|e] eqn:Hparse.
  2:{ apply parseAndTransform_throws in Hparse as (lit & ref & ->). done. }
  assert (forall sub, sub ∈ subModules ->
                      edge fs baseDir (res name) (res sub)) as Hedge.
  { intros sub Hsub. exists (res <$> subModules). split.
    - unfold depsOf, importsOf. by rewrite Hread, Hparse.
    - by apply list_elem_of_fmap_2. }
  generalize (setModule name newContent (logRead (res name) st)) as st2.
  clear Hread Hparse. intros st2.
  destruct (forEach _ subModules _ _) as [[[stack2 st3]|e]|] eqn:Hloop;
    [done| |done].
  intros [= ->]. revert st2 Hloop.
  induction subModules as [|sub subs IHsubs]; intros st2; cbn; [done|].
  destruct (loadModule fs baseDir fuel sub (JS.push stack (res name)) (res name)
              st2) as [[[stack2 st3]|e]|] eqn:Hsub; [| |done].
  - apply loadModule_sound in Hsub as [-> _].
    apply IHsubs. intros s Hs. apply Hedge. by right.
  - intros [= ->].
    destruct (IH sub (JS.push stack (res name)) (res name) st2) as [Hreach Hcycle];
      [|done|].
    + intros q [Hq| ->%list_elem_of_singleton]%elem_of_app.
      * eapply tc_r; [by apply Hstack|]. apply Hedge. left.
      * apply tc_once, Hedge. left.
    + split; [|done]. eapply rtc_l; [|done]. apply Hedge. left.
Qed.

Lemma buildTable_circular fuel entryFile moduleName from :
  buildTable fs baseDir fuel entryFile
  = Some (Throw (CircularImport moduleName from)) ->
  cycleReachable fs baseDir entryFile.
Proof.
  unfold buildTable.
  destruct (readFileSync fs _) as [entryContent|m] eqn:Hread; [|done].
  destruct (parseAndTransform fs baseDir entryContent _)
    as [[t imports]|e] eqn:Hparse.
  2:{ apply parseAndTransform_throws in Hparse as (lit & ref & ->). done. }
  pose proof (depsOf_entry _ _ _ _ Hread Hparse) as Hdeps.
  assert (forall name, name ∈ imports ->
            edge fs baseDir (path_join baseDir entryFile) (res name)) as Hedge.
  { intros name Hname. exists (res <$> imports). split; [done|].
    by apply list_elem_of_fmap_2. }
  clear Hread Hparse Hdeps.
  generalize (logRead (path_join baseDir entryFile) initialState) as st.
  induction imports as [|name names IH]; intros st; cbn; [done|].
  destruct (loadModule fs baseDir fuel name [] _ st)
    as [[[stack1 st1]|e]|] eqn:Hname; [| |done].
  - apply IH. intros n Hn. apply Hedge. by right.
  - intros [= ->].
    destruct (loadModule_circular _ _ _ _ _ _ _ ltac:(by intros q ?%elem_of_nil)
                Hname) as [Hreach Hcycle].
    exists (res moduleName). split; [|done].
    eapply tc_rtc_r; [|done]. apply tc_once, Hedge. left.
Qed.

(** *** What a returning call does to the table *)

Local Abbreviation keys st := (JS.Object_keys (modules st)).

Lemma elem_of_Set_add s x q : q ∈ JS.Set_add s x <-> q ∈ s \/ q = x.
Proof.
  unfold JS.Set_add. case_bool_decide.
  - split; [by left | by intros [?| ->]].
  - rewrite elem_of_app, list_elem_of_singleton. done.
Qed.

Lemma tableInv_insert earlier stack st name newContent :
  tableInv baseDir earlier stack st ->
  res name ∉ stack -> res name ∉ visited st ->
  keys (setModule name newContent (logRead (res name) st)) = keys st ++ [name]
  /\ tableInv baseDir earlier (stack ++ [res name])
       (setModule name newContent (logRead (res name) st)).
Proof.
  intros (Hkeys & Hnd & Hreads & Hvis) Hstack Hvisited.
  assert (res name ∉ res <$> keys st) as Hfresh.
  { intros [?|?]%Hkeys; done. }
  assert (name ∉ keys st) as Hname.
  { intros ?. by apply Hfresh, list_elem_of_fmap_2. }
  assert (keys (setModule name newContent (logRead (res name) st))
          = keys st ++ [name]) as Heq.
  { cbn [modules setModule logRead]. by apply Object_keys_set_fresh. }
  split; [done|]. unfold tableInv. rewrite Heq, fmap_app. cbn [fmap list_fmap].
  cbn [visited reads setModule logRead]. repeat split.
  - intros q [Hq| ->%list_elem_of_singleton]%elem_of_app.
    + destruct (Hkeys q Hq); [left; apply elem_of_app; by left | by right].
    + left. apply elem_of_app. right. left.
  - apply NoDup_app. split; [done|]. split; [|apply NoDup_singleton].
    by intros q Hq ->%list_elem_of_singleton.
  - by rewrite Hreads, app_assoc.
  - intros q Hq. apply elem_of_app. left. by apply Hvis.
Qed.

Lemma tableInv_finish earlier stack st p :
  tableInv baseDir earlier (stack ++ [p]) st ->
  p ∈ res <$> keys st ->
  tableInv baseDir earlier stack (addVisited p st).
Proof.
  intros (Hkeys & Hnd & Hreads & Hvis) Hp. unfold tableInv.
  cbn [modules visited reads addVisited]. repeat split; [|done..|].
  - intros q Hq. rewrite elem_of_Set_add.
    destruct (Hkeys q Hq) as [[?| ->%list_elem_of_singleton]%elem_of_app|?];
      auto.
  - intros q [?| ->]%elem_of_Set_add; auto.
Qed.

Lemma Loads_table :
  (forall name stack st st',
      Loads fs baseDir name stack st st' ->
      forall earlier, tableInv baseDir earlier stack st ->
        tableInv baseDir earlier stack st'
        /\ keys st `prefix_of` keys st'
        /\ (forall k, k ∈ keys st' ->
              k ∈ keys st \/ rtc (edge fs baseDir) (res name) (res k)))
  /\ (forall names stack st st',
        LoadsAll fs baseDir names stack st st' ->
        forall earlier, tableInv baseDir earlier stack st ->
          tableInv baseDir earlier stack st'
          /\ keys st `prefix_of` keys st'
          /\ (forall k, k ∈ keys st' ->
                k ∈ keys st
                \/ exists n, n ∈ names
                             /\ rtc (edge fs baseDir) (res n) (res k))).
Proof.
  apply Loads_LoadsAll_ind.
  - intros name stack st _ _ earlier Hinv. split; [done|]. split; [done|]. auto.
  - intros name stack st luaContent newContent subModules st'
      Hstack Hvisited Hread Hparse _ IH earlier Hinv.
    destruct (tableInv_insert earlier stack st name newContent Hinv Hstack
                Hvisited) as [Hkeys2 Hinv2].
    destruct (IH earlier Hinv2) as (Hinv3 & Hprefix & Hreach).
    rewrite Hkeys2 in Hprefix, Hreach.
    assert (name ∈ keys st') as Hname.
    { destruct Hprefix as [rest ->]. rewrite !elem_of_app. left. right. left. }
    split; [|split].
    + apply tableInv_finish; [done|]. by apply list_elem_of_fmap_2.
    + cbn [modules addVisited]. etrans; [|done]. by apply prefix_app_r.
    + cbn [modules addVisited]. intros k Hk.
      destruct (Hreach k Hk)
        as [[?| ->%list_elem_of_singleton]%elem_of_app|(n & Hn & Hnk)];
        [by left | by right |].
      right. eapply rtc_l; [|done]. exists (res <$> subModules).
      split; [|by apply list_elem_of_fmap_2].
      unfold depsOf, importsOf. by rewrite Hread, Hparse.
  - intros stack st earlier Hinv. split; [done|]. split; [done|]. auto.
  - intros name names stack st st1 st2 _ IH1 _ IH2 earlier Hinv.
    destruct (IH1 earlier Hinv) as (Hinv1 & Hprefix1 & Hreach1).
    destruct (IH2 earlier Hinv1) as (Hinv2 & Hprefix2 & Hreach2).
    split; [done|]. split; [by etrans|].
    intros k Hk. destruct (Hreach2 k Hk) as [Hk1|(n & Hn & Hnk)].
    + destruct (Hreach1 k Hk1) as [?|?]; [by left|].
      right. exists name. split; [left | done].
    + right. exists n. split; [by right | done].
Qed.

(** *** The traversal lists the modules in discovery order *)

Lemma loadModule_discover fuel name stack previousPath st stack' st'
    earlier (seen : list string) :
  loadModule fs baseDir fuel name stack previousPath st
  = Some (Ok (stack', st')) ->
  tableInv baseDir earlier stack st ->
  (forall x, x ∈ seen <-> x ∈ stack \/ x ∈ visited st) ->
  exists seen',
    discover fs baseDir fuel name seen (keys st) = Some (seen', keys st')
    /\ (forall x, x ∈ seen' <-> x ∈ stack \/ x ∈ visited st').
Proof.
  revert name stack previousPath st stack' st' seen.
  induction fuel as [|fuel IH];
    intros name stack previousPath st stack' st' seen; [done|].
  cbn [loadModule discover]. unfold JS.includes, JS.Set_has.
  case_bool_decide as Hstack; [done|].
  case_bool_decide as Hvisited.
  { intros [= <- <-] _ Hseen. exists seen.
    rewrite bool_decide_eq_true_2 by (apply Hseen; by right). done. }
  intros Hrun Hinv Hseen.
  rewrite bool_decide_eq_false_2 by (rewrite Hseen; by intros [?|?]).
  unfold importsOf.
  destruct (readFileSync fs (res name)) as [luaContent|m] eqn:Hread; [|done].
  destruct (parseAndTransform fs baseDir luaContent (res name))
    as [[newContent subModules]|e] eqn:Hparse; [|done].
  destruct (tableInv_insert earlier stack st name newContent Hinv Hstack
              Hvisited) as [Hkeys2 Hinv2].
  rewrite <-Hkeys2.
  assert (forall x, x ∈ res name :: seen <->
                    x ∈ JS.push stack (res name)
                    \/ x ∈ visited (setModule name newContent
                                      (logRead (res name) st))) as Hseen2.
  { intros x. unfold JS.push. cbn [visited setModule logRead].
    rewrite elem_of_cons, elem_of_app, list_elem_of_singleton, Hseen.
    tauto. }
  revert Hrun Hinv2 Hseen2.
  generalize (setModule name newContent (logRead (res name) st)) as st2.
  generalize (res name :: seen) as seen2. unfold JS.push.
  intros seen2 st2 Hrun Hinv2 Hseen2.
  destruct (forEach _ subModules _ _) as [[[stack2 st3]|e]|] eqn:Hloop;
    [|done..].
  injection Hrun as <- <-.
  enough (exists seen3,
             discoverAll (discover fs baseDir fuel) subModules seen2 (keys st2)
             = Some (seen3, keys st3)
             /\ (forall x, x ∈ seen3 <->
                           x ∈ stack ++ [res name] \/ x ∈ visited st3))
    as (seen3 & -> & Hseen3).
  { exists seen3. split; [done|]. intros x.
    cbn [visited addVisited].
    rewrite Hseen3, elem_of_Set_add, elem_of_app, list_elem_of_singleton.
    tauto. }
  clear Hread Hparse Hkeys2 Hseen Hinv Hvisited.
  revert seen2 st2 Hloop Hinv2 Hseen2.
  induction subModules as [|sub subs IHsubs];
    intros seen2 st2 Hloop Hinv2 Hseen2; cbn in Hloop |- *.
  { injection Hloop as <- <-. by exists seen2. }
  destruct (loadModule fs baseDir fuel sub (stack ++ [res name]) (res name) st2)
    as [[[stack3 st4]|e]|] eqn:Hsub; [|done..].
  destruct (IH _ _ _ _ _ _ seen2 Hsub Hinv2 Hseen2) as (seen4 & -> & Hseen4).
  apply loadModule_sound in Hsub as [-> Hload].
  destruct (proj1 Loads_table _ _ _ _ Hload earlier Hinv2) as (Hinv4 & _).
  by apply IHsubs.
Qed.

Lemma tableInv_initial entryPath :
  tableInv baseDir [entryPath] [] (logRead entryPath initialState).
Proof.
  unfold tableInv. cbn. repeat split; [|constructor|]; by intros q ?%elem_of_nil.
Qed.

Lemma buildTable_discover fuel entryFile transformedEntry st :
  buildTable fs baseDir fuel entryFile = Some (Ok (transformedEntry, st)) ->
  discoveryOrder fs baseDir fuel entryFile = Some (keys st).
Proof.
  unfold buildTable, discoveryOrder, importsOf.
  destruct (readFileSync fs _) as [entryContent|m]; [|done].
  destruct (parseAndTransform fs baseDir entryContent _)
    as [[t imports]|e]; [|done].
  destruct (loadEntryImports _ _ _ _ _ _) as [[st1|e]|] eqn:Hloop; [|done..].
  intros [= <- <-].
  assert (forall names (seen : list string) st0,
             loadEntryImports fs baseDir fuel names
               (path_join baseDir entryFile) st0 = Some (Ok st1) ->
             tableInv baseDir [path_join baseDir entryFile] [] st0 ->
             (forall x, x ∈ seen <-> x ∈ ([] : list string) \/ x ∈ visited st0) ->
             exists seen',
               discoverAll (discover fs baseDir fuel) names seen (keys st0)
               = Some (seen', keys st1)) as Hgen.
  { clear Hloop. induction names as [|name names IH];
      intros seen st0 Hloop Hinv Hseen; cbn in Hloop |- *.
    { injection Hloop as <-. by exists seen. }
    destruct (loadModule fs baseDir fuel name [] _ st0)
      as [[[stack1 st2]|e]|] eqn:Hname; [|done..].
    destruct (loadModule_discover _ _ _ _ _ _ _ _ seen Hname Hinv Hseen)
      as (seen2 & -> & Hseen2).
    apply loadModule_sound in Hname as [-> Hload].
    destruct (proj1 Loads_table _ _ _ _ Hload _ Hinv) as (Hinv2 & _).
    by apply IH. }
  destruct (Hgen imports [] _ Hloop (tableInv_initial _)) as (seen' & Hd).
  { cbn. intros x. split; [by intros ?%elem_of_nil | by intros [?|?]]. }
  cbn in Hd. by rewrite Hd.
Qed.

End Builder.

(** ** More on the builder *)

Lemma elem_of_Object_set o k v k' v' :
  (k', v') ∈ JS.Object_set o k v -> (k', v') = (k, v) \/ (k', v') ∈ o.
Proof.
  induction o as [|[k0 v0] o IH]; cbn.
  - intros ->%list_elem_of_singleton. by left.
  - case_bool_decide.
    + intros [->|Hin]%elem_of_cons; [by left | right; by right].
    + intros [->|Hin]%elem_of_cons; [right; by left|].
      destruct (IH Hin) as [->|?]; [by left | right; by right].
Qed.

Lemma filter_unique {A B : Type} `{EqDecision B} (f : A -> B) (l : list A)
    (x : A) :
  NoDup (f <$> l) -> x ∈ l -> filter (fun e => f e = f x) l = [x].
Proof.
  induction l as [|y l IH]; [by intros _ ?%elem_of_nil|].
  rewrite fmap_cons. intros [Hy Hnd]%NoDup_cons [-> |Hx]%elem_of_cons.
  - rewrite filter_cons_True by done. f_equal.
    clear IH Hnd. induction l as [|z l IH]; [done|].
    rewrite fmap_cons in Hy. apply not_elem_of_cons in Hy as [Hz Hy].
    rewrite filter_cons_False by (by intros ?). by apply IH.
  - rewrite filter_cons_False; [by apply IH|].
    intros Heq. apply Hy. rewrite Heq. by apply list_elem_of_fmap_2.
Qed.

Section BuilderMore.
Context {np : NodePath} (fs : gmap string node) (baseDir : string).

Local Abbreviation res := (path_resolve baseDir).

Lemma Postordered_depsOf V p :
  Postordered fs baseDir V -> p ∈ V -> is_Some (depsOf fs baseDir p).
Proof.
  induction 1 as [|V p' ds _ IH _ Hds _]; [by intros ?%elem_of_nil|].
  intros [?| ->%list_elem_of_singleton]%elem_of_app; [by apply IH | by eexists].
Qed.

Lemma Loads_content :
  let good (st : State) :=
    forall k v, (k, v) ∈ modules st ->
      exists content subModules,
        readFileSync fs (res k) = inl content
        /\ parseAndTransform fs baseDir content (res k) = Ok (v, subModules) in
  (forall name stack st st',
      Loads fs baseDir name stack st st' -> good st -> good st')
  /\ (forall names stack st st',
        LoadsAll fs baseDir names stack st st' -> good st -> good st').
Proof.
  intros good. apply Loads_LoadsAll_ind; [done| |done|auto].
  intros name stack st luaContent newContent subModules st'
    _ _ Hread Hparse _ IH Hgood.
  unfold good in *. cbn [modules addVisited]. apply IH.
  cbn [modules setModule logRead]. intros k v [[= -> ->]|Hin]%elem_of_Object_set.
  - by exists luaContent, subModules.
  - by apply Hgood.
Qed.

(** A build that returns met only files that can be read and resolved. *)
Lemma buildTable_wellFormed fuel entryFile transformedEntry st :
  buildTable fs baseDir fuel entryFile = Some (Ok (transformedEntry, st)) ->
  wellFormedTree fs baseDir entryFile.
Proof.
  intros Hbuild p Hp.
  destruct (buildTable_sound _ _ _ _ _ _ Hbuild)
    as (content & imports & Hread & Hparse & _).
  destruct (buildTable_visited _ _ _ _ _ _ Hbuild) as [Hpost Hall].
  apply rtc_tc in Hp as [<- |Hp].
  - rewrite (depsOf_entry _ _ _ _ _ _ Hread Hparse). by eexists.
  - eapply Postordered_depsOf; [done | by apply Hall].
Qed.

(** Where every file can be read and resolved and no cycle can be reached,
    the build returns. *)
Lemma buildTable_returns fuel entryFile :
  size fs < fuel ->
  wellFormedTree fs baseDir entryFile ->
  ~ cycleReachable fs baseDir entryFile ->
  exists transformedEntry st,
    buildTable fs baseDir fuel entryFile = Some (Ok (transformedEntry, st)).
Proof.
  intros Hfuel Hwf Hcycle.
  destruct (buildTable_terminates fs baseDir fuel entryFile Hfuel)
    as [[[t st]|e] Hbuild]; [by exists t, st|].
  destruct (buildTable_throws _ _ _ _ _ Hwf Hbuild)
    as (m & from & _ & -> & _).
  by apply buildTable_circular in Hbuild.
Qed.

Lemma buildTable_content fuel entryFile transformedEntry st k v :
  buildTable fs baseDir fuel entryFile = Some (Ok (transformedEntry, st)) ->
  (k, v) ∈ modules st ->
  exists content subModules,
    readFileSync fs (res k) = inl content
    /\ parseAndTransform fs baseDir content (res k) = Ok (v, subModules).
Proof.
  intros Hbuild.
  destruct (buildTable_sound _ _ _ _ _ _ Hbuild)
    as (content & imports & _ & _ & Hloads).
  revert k v. eapply (proj2 Loads_content); [done|].
  by intros k v ?%elem_of_nil.
Qed.

End BuilderMore.

(** ** Properties of a build *)

Lemma NoDup_fmap_eq {A B : Type} (f : A -> B) (l : list A) (x y : A) :
  NoDup (f <$> l) -> x ∈ l -> y ∈ l -> f x = f y -> x = y.
Proof.
  induction l as [|z l IH]; cbn; [by intros _ ?%elem_of_nil|].
  intros [Hz Hnd]%NoDup_cons [-> |Hx]%elem_of_cons [-> |Hy]%elem_of_cons Hxy;
    [done| | |by apply IH].
  - destruct Hz. rewrite Hxy. by apply list_elem_of_fmap_2.
  - destruct Hz. rewrite <-Hxy. by apply list_elem_of_fmap_2.
Qed.

Lemma join_snoc sep (l : list string) (x : string) :
  l <> [] -> JS.join sep (l ++ [x]) = JS.join sep l +:+ sep +:+ x.
Proof.
  induction l as [|a l IH]; [done|]. intros _.
  destruct l as [|b l]; [done|].
  change (JS.join sep ((a :: b :: l) ++ [x]))
    with (a +:+ sep +:+ JS.join sep ((b :: l) ++ [x])).
  rewrite IH by done.
  change (JS.join sep (a :: b :: l)) with (a +:+ sep +:+ JS.join sep (b :: l)).
  by rewrite !string_app_assoc.
Qed.

Lemma string_app_inj_r (a b t : string) : a +:+ t = b +:+ t -> a = b.
Proof.
  revert b. induction a as [|x a IH]; intros [|y b]; cbn; [done| | |].
  - intros Heq. apply (f_equal String.length) in Heq. cbn in Heq.
    rewrite string_length_app in Heq. lia.
  - intros Heq. apply (f_equal String.length) in Heq. cbn in Heq.
    rewrite string_length_app in Heq. lia.
  - intros [= -> Heq]. f_equal. by apply IH.
Qed.

Lemma thunkHeader_inj (k k' : string) : thunkHeader k = thunkHeader k' -> k = k'.
Proof.
  unfold thunkHeader. intros Heq.
  apply (inj (String.append "__BUNDLE['")) in Heq.
  by apply string_app_inj_r in Heq.
Qed.

Section BuilderClaims.
Context {np : NodePath} (fs : gmap string node) (baseDir : string).

Local Abbreviation res := (path_resolve baseDir).
Local Abbreviation keys st := (JS.Object_keys (modules st)).

Lemma buildTable_table fuel entryFile transformedEntry st :
  buildTable fs baseDir fuel entryFile = Some (Ok (transformedEntry, st)) ->
  tableInv baseDir [path_join baseDir entryFile] [] st
  /\ forall k, k ∈ keys st ->
               tc (edge fs baseDir) (path_join baseDir entryFile) (res k).
Proof.
  intros (content & imports & Hread & Hparse & Hall)%buildTable_sound.
  destruct (proj2 (Loads_table fs baseDir) _ _ _ _ Hall _
              (tableInv_initial baseDir _)) as (Hinv & _ & Hreach).
  split; [done|]. intros k Hk.
  destruct (Hreach k Hk) as [?%elem_of_nil|(n & Hn & Hnk)]; [done|].
  eapply tc_rtc_r; [|done]. apply tc_once. exists (res <$> imports).
  split; [by eapply depsOf_entry | by apply list_elem_of_fmap_2].
Qed.

Lemma bundleLua_Ok fuel entryFile dateString timeString artifact :
  bundleLua fs baseDir fuel entryFile dateString timeString
  = Some (Ok artifact) ->
  exists transformedEntry st,
    buildTable fs baseDir fuel entryFile = Some (Ok (transformedEntry, st))
    /\ artifact = JS.join LF (outputLines dateString timeString (modules st)
                                transformedEntry).
Proof.
  unfold bundleLua.
  destruct (buildTable fs baseDir fuel entryFile) as [[[t st]|e]|]; [|done..].
  intros [= <-]. by exists t, st.
Qed.

(** C1, as amended.  When a cycle can be reached from the entry module, the
    build fails: [bundleLua] throws, the command line prints the message and
    exits with status 1, and nothing is written.  When moreover every
    module that can be reached from the entry is readable and has all its
    import literals resolved, what is thrown is [CircularImport].  The
    exception is raised by [loadModule] whenever the absolute path of the
    module it is asked to load is on the active stack. *)
Theorem cycle_fails_build fuel entryFile outputFile node script rest
    dateString timeString :
  size fs < fuel ->
  cycleReachable fs baseDir entryFile ->
  (exists e,
      bundleLua fs baseDir fuel entryFile dateString timeString
      = Some (Throw e)
      /\ main fuel (node :: script :: baseDir :: entryFile :: outputFile :: rest)
           dateString timeString fs
         = Some {| exitCode := 1;
                   consoleLine := red +:+ "[ERROR] " +:+ reset +:+ message e;
                   disk := fs |}
      /\ (wellFormedTree fs baseDir entryFile ->
          exists moduleName from, e = CircularImport moduleName from))
  /\ (forall fuel' moduleName stack previousPath st,
        res moduleName ∈ stack ->
        loadModule fs baseDir (S fuel') moduleName stack previousPath st
        = Some (Throw (CircularImport moduleName previousPath))).
Proof.
  intros Hfuel Hcycle. split.
  - destruct (buildTable_terminates fs baseDir fuel entryFile Hfuel)
      as [[[t st]|e] Hbuild].
    { by apply buildTable_acyclic in Hbuild. }
    exists e. unfold main, bundleLua. rewrite Hbuild.
    split; [done|]. split; [done|]. intros Hwf.
    destruct (buildTable_throws fs baseDir fuel entryFile e Hwf Hbuild)
      as (n & from & _ & -> & _).
    by exists n, from.
  - intros fuel' moduleName stack previousPath st Hin. cbn [loadModule].
    unfold JS.includes. by rewrite bool_decide_eq_true_2.
Qed.

(** C2. Diamond dedup.  Where every module that the entry reaches can be
    read and resolved and no cycle can be reached, and so for every
    diamond, the build returns.  After a build that returns, the keys of the
    table are pairwise distinct and so are the files they name; every
    module that can be reached from the entry, along one path or along
    several, has exactly one entry in the table, which holds the rewritten
    text of its file; each of these files was read once; the artifact holds
    the lines of one thunk per entry of the table, its binding line, its
    text, [end] and an empty line, and no two binding lines are equal.  When
    the path [loadModule] is given is in the visited set, it returns at once
    and leaves the stack, the table, the visited set and the trace of reads
    as they are, unless the path is on the stack, which it never is in a
    build that returns, since such a build throws nothing.  With fuel beyond
    the number of files the build does return or throw. *)
Theorem diamond_dedup fuel entryFile :
  (size fs < fuel ->
   wellFormedTree fs baseDir entryFile ->
   ~ cycleReachable fs baseDir entryFile ->
   exists transformedEntry st,
     buildTable fs baseDir fuel entryFile = Some (Ok (transformedEntry, st)))
  /\ (size fs < fuel -> is_Some (buildTable fs baseDir fuel entryFile))
  /\ forall transformedEntry st,
      buildTable fs baseDir fuel entryFile = Some (Ok (transformedEntry, st)) ->
      NoDup (keys st)
      /\ (forall p, tc (edge fs baseDir) (path_join baseDir entryFile) p ->
            exists k v content subModules,
              k ∈ keys st /\ res k = p
              /\ (forall k', k' ∈ keys st -> res k' = p -> k' = k)
              /\ filter (fun e => res e.1 = p) (modules st) = [(k, v)]
              /\ readFileSync fs p = inl content
              /\ parseAndTransform fs baseDir content p = Ok (v, subModules))
      /\ reads st = path_join baseDir entryFile :: (res <$> keys st)
      /\ NoDup (res <$> keys st)
      /\ (forall dateString timeString,
            bundleLua fs baseDir fuel entryFile dateString timeString
            = Some (Ok (JS.join LF
                          (header dateString timeString
                           ++ concat
                                ((fun e =>
                                    [ "__BUNDLE['" +:+ e.1 +:+ "'] = function()";
                                      e.2;
                                      "end";
                                      EmptyString ]) <$> modules st)
                           ++ importLoader ++ gameRequire
                           ++ ["-- Entry point"; transformedEntry]))))
      /\ NoDup ((fun k => "__BUNDLE['" +:+ k +:+ "'] = function()") <$> keys st)
      /\ (forall fuel' name stack previousPath st0,
            res name ∈ visited st0 ->
            loadModule fs baseDir (S fuel') name stack previousPath st0
            = if bool_decide (res name ∈ stack)
              then Some (Throw (CircularImport name previousPath))
              else Some (Ok (stack, st0))).
Proof.
  split; [apply buildTable_returns|].
  split; [apply buildTable_terminates|]. intros transformedEntry st Hbuild.
  destruct (buildTable_table _ _ _ _ Hbuild) as [(_ & Hnd & Hreads & Hvis) _].
  destruct (buildTable_visited fs baseDir _ _ _ _ Hbuild) as [_ Hreach].
  assert (NoDup (keys st)) as Hkeys by (by apply NoDup_fmap_1 in Hnd).
  split; [done|]. split; [|split; [|split; [|split; [|split]]]].
  - intros p Hp. apply Hreach, Hvis, list_elem_of_fmap in Hp as (k & -> & Hk).
    pose proof Hk as Hentry.
    apply list_elem_of_fmap in Hentry as ([k0 v] & Hk0 & Hentry).
    cbn in Hk0. subst k0.
    destruct (buildTable_content fs baseDir _ _ _ _ _ _ Hbuild Hentry)
      as (content & subModules & Hread & Hparse).
    exists k, v, content, subModules.
    split; [done|]. split; [done|]. split; [|split; [|done]].
    + intros k' Hk' Heq. by apply (NoDup_fmap_eq res (keys st)).
    + apply (filter_unique (fun e : string * string => res e.1) (modules st)
               (k, v)); [|done].
      unfold JS.Object_keys in Hnd. by rewrite <-list_fmap_compose in Hnd.
  - done.
  - done.
  - intros dateString timeString. unfold bundleLua. by rewrite Hbuild.
  - apply NoDup_fmap_2; [|done]. intros k k'. apply thunkHeader_inj.
  - intros fuel' name stack previousPath st0 Hvisited.
    cbn [loadModule]. unfold JS.includes, JS.Set_has.
    case_bool_decide; [done|]. by rewrite bool_decide_eq_true_2.
Qed.

(** C3. Insertion order.  [loadModule] stores a module before it loads the
    imports of that module: the recursive loads start from the table that
    already holds it.  After a build that returns, the keys of the table,
    and so the thunks of the artifact, are in depth-first, first-occurrence
    discovery order; any other run on the same tree that returns gives the
    same keys in the same order.  With fuel beyond the number of files the
    build does return or throw. *)
Theorem insertion_order fuel entryFile :
  (size fs < fuel -> is_Some (buildTable fs baseDir fuel entryFile))
  /\ forall transformedEntry st,
      buildTable fs baseDir fuel entryFile = Some (Ok (transformedEntry, st)) ->
      discoveryOrder fs baseDir fuel entryFile = Some (keys st)
      /\ (forall dateString timeString,
            bundleLua fs baseDir fuel entryFile dateString timeString
            = Some (Ok (JS.join LF
                          (header dateString timeString
                           ++ concat (thunk <$> modules st)
                           ++ importLoader ++ gameRequire
                           ++ ["-- Entry point"; transformedEntry]))))
      /\ (forall fuel' transformedEntry' st',
            buildTable fs baseDir fuel' entryFile
            = Some (Ok (transformedEntry', st')) ->
            keys st' = keys st)
      /\ (forall fuel' name stack previousPath st0 luaContent newContent
                 subModules,
            res name ∉ stack -> res name ∉ visited st0 ->
            readFileSync fs (res name) = inl luaContent ->
            parseAndTransform fs baseDir luaContent (res name)
            = Ok (newContent, subModules) ->
            loadModule fs baseDir (S fuel') name stack previousPath st0
            = match
                forEach (fun subModule stk s =>
                           loadModule fs baseDir fuel' subModule stk
                             (res name) s)
                  subModules (stack ++ [res name])
                  (setModule name newContent (logRead (res name) st0))
              with
              | Some (Ok (stack2, st3)) =>
                  Some (Ok (JS.pop stack2, addVisited (res name) st3))
              | other => other
              end).
Proof.
  split; [apply buildTable_terminates|]. intros transformedEntry st Hbuild.
  split; [by apply buildTable_discover in Hbuild|].
  split; [|split].
  - intros dateString timeString. unfold bundleLua. by rewrite Hbuild.
  - intros fuel' t' st' Hbuild'.
    apply (buildTable_fuel_mono _ _ _ (fuel `max` fuel')) in Hbuild; [|lia].
    apply (buildTable_fuel_mono _ _ _ (fuel `max` fuel')) in Hbuild'; [|lia].
    congruence.
  - intros fuel' name stack previousPath st0 luaContent newContent subModules
      Hstack Hvisited Hread Hparse.
    cbn [loadModule]. unfold JS.includes, JS.Set_has.
    rewrite !bool_decide_eq_false_2 by done. by rewrite Hread, Hparse.
Qed.

(** C9. The entry module.  In a build that returns an artifact, the keys
    of the table all name direct or transitive dependencies of the entry
    file, none of them names the entry file itself, and the artifact ends
    with the line [-- Entry point] followed by the rewritten text of the
    entry, as [parseAndTransform] returned it.  With fuel beyond the number
    of files the build does return or throw. *)
Theorem entry_outside_table fuel entryFile dateString timeString :
  (size fs < fuel ->
   is_Some (bundleLua fs baseDir fuel entryFile dateString timeString))
  /\ forall artifact,
      bundleLua fs baseDir fuel entryFile dateString timeString
      = Some (Ok artifact) ->
      exists entryContent transformedEntry entryImports st,
        readFileSync fs (path_join baseDir entryFile) = inl entryContent
        /\ parseAndTransform fs baseDir entryContent
             (path_join baseDir entryFile)
           = Ok (transformedEntry, entryImports)
        /\ buildTable fs baseDir fuel entryFile
           = Some (Ok (transformedEntry, st))
        /\ (forall k, k ∈ keys st ->
              tc (edge fs baseDir) (path_join baseDir entryFile) (res k))
        /\ (forall k, k ∈ keys st -> res k <> path_join baseDir entryFile)
        /\ exists before,
             artifact = before +:+ LF +:+ "-- Entry point" +:+ LF
                        +:+ transformedEntry.
Proof.
  split.
  { intros Hfuel. unfold bundleLua.
    by destruct (buildTable_terminates fs baseDir fuel entryFile Hfuel)
      as [[[t st]|e] ->]. }
  intros artifact (t & st & Hbuild & ->)%bundleLua_Ok.
  destruct (buildTable_sound fs baseDir _ _ _ _ Hbuild)
    as (content & imports & Hread & Hparse & _).
  destruct (buildTable_table _ _ _ _ Hbuild) as [_ Hdeps].
  exists content, t, imports, st. repeat split; [done..| | |].
  - done.
  - intros k Hk Heq. apply (buildTable_acyclic fs baseDir _ _ _ _ Hbuild).
    exists (res k). split; [by apply Hdeps|]. rewrite Heq at 1. by apply Hdeps.
  - unfold outputLines.
    exists (JS.join LF (header dateString timeString
                        ++ concat (map thunk (modules st))
                        ++ importLoader ++ gameRequire)).
    rewrite !app_assoc.
    change [ "-- Entry point"; t ] with ([ "-- Entry point" ] ++ [ t ]).
    rewrite app_assoc, join_snoc by (by destruct (modules st)).
    rewrite join_snoc by done.
    by rewrite <-!app_assoc, !string_app_assoc.
Qed.

End BuilderClaims.

(** *** The builder on the example trees *)

Module ExampleFacts.
Import Examples.

Lemma cyclic_main_a :
  edge (np := P) cyclic base "/proj/src/main.lua" "/proj/src/a.lua".
Proof. edge_step. Qed.

Lemma cyclic_a_b :
  edge (np := P) cyclic base "/proj/src/a.lua" "/proj/src/b.lua".
Proof. edge_step. Qed.

Lemma cyclic_b_c :
  edge (np := P) cyclic base "/proj/src/b.lua" "/proj/src/c.lua".
Proof. edge_step. Qed.

Lemma cyclic_c_a :
  edge (np := P) cyclic base "/proj/src/c.lua" "/proj/src/a.lua".
Proof. edge_step. Qed.

Lemma cyclic_cycleReachable : cycleReachable (np := P) cyclic base "main.lua".
Proof.
  exists "/proj/src/a.lua". split.
  - apply tc_once, cyclic_main_a.
  - eapply tc_l; [apply cyclic_a_b|]. eapply tc_l; [apply cyclic_b_c|].
    apply tc_once, cyclic_c_a.
Qed.

Lemma cyclic_wellFormed : wellFormedTree (np := P) cyclic base "main.lua".
Proof.
  set (S := [ "/proj/src/main.lua"; "/proj/src/a.lua"; "/proj/src/b.lua";
              "/proj/src/c.lua" ]).
  assert (forall x p, rtc (edge (np := P) cyclic base) x p -> x ∈ S -> p ∈ S)
    as Hclosed.
  { intros x p Hxp. induction Hxp as [|x y p (ds & Hds & Hy) _ IH]; [done|].
    intros Hx. apply IH. unfold S in Hx. set_unfold in Hx.
    destruct Hx as [-> |[-> |[-> |[-> |[]]]]]; vm_compute in Hds;
      injection Hds as <-; apply list_elem_of_singleton in Hy as ->;
      unfold S; in_list. }
  intros p Hp.
  assert (p ∈ S) as HpS.
  { apply (Hclosed _ _ Hp). unfold S. vm_compute. in_list. }
  unfold S in HpS. set_unfold in HpS.
  destruct HpS as [-> |[-> |[-> |[-> |[]]]]]; vm_compute; eauto.
Qed.

Lemma broken_cycleReachable :
  cycleReachable (np := P) cyclicBroken base "main.lua".
Proof.
  exists "/proj/src/a.lua". split.
  - apply tc_once. edge_step.
  - eapply tc_l; [|apply tc_once]; edge_step.
Qed.

Lemma nested_reaches_d :
  tc (edge (np := P) nested base) (path_join (NodePath := P) base "main.lua")
    "/proj/src/lib/d.lua".
Proof. eapply tc_l; [|eapply tc_l; [|apply tc_once]]; edge_step. Qed.

End ExampleFacts.

Lemma cycle_fails_build_witness :
  size Examples.cyclic < 5
  /\ cycleReachable (np := Examples.P) Examples.cyclic Examples.base "main.lua"
  /\ wellFormedTree (np := Examples.P) Examples.cyclic Examples.base "main.lua"
  /\ exists e,
       bundleLua (np := Examples.P) Examples.cyclic Examples.base 5 "main.lua"
         "1/2/2025" "10:00:00 AM" = Some (Throw e)
       /\ main (np := Examples.P) 5
            [ "node"; "bundler.js"; Examples.base; "main.lua"; "/proj/out.lua" ]
            "1/2/2025" "10:00:00 AM" Examples.cyclic
          = Some {| exitCode := 1;
                    consoleLine := red +:+ "[ERROR] " +:+ reset +:+ message e;
                    disk := Examples.cyclic |}
       /\ exists moduleName from, e = CircularImport moduleName from.
Proof.
  assert (size Examples.cyclic < 5) as Hsize by (vm_compute; lia).
  split; [exact Hsize|].
  split; [exact ExampleFacts.cyclic_cycleReachable|].
  split; [exact ExampleFacts.cyclic_wellFormed|].
  destruct (cycle_fails_build (np := Examples.P) Examples.cyclic Examples.base 5
              "main.lua" "/proj/out.lua" "node" "bundler.js" []
              "1/2/2025" "10:00:00 AM" Hsize
              ExampleFacts.cyclic_cycleReachable)
    as [(e & Hbundle & Hmain & Hkind) _].
  exists e. split; [exact Hbundle|]. split; [exact Hmain|].
  exact (Hkind ExampleFacts.cyclic_wellFormed).
Defined.

(** C1, as stated, fails: in this tree the cycle a, b, a can be reached from
    the entry, and the build fails with [ModuleNotFound], raised for the
    module that is loaded before the cycle is met. *)
Lemma cycle_fails_build_counterexample :
  cycleReachable (np := Examples.P) Examples.cyclicBroken Examples.base "main.lua"
  /\ bundleLua (np := Examples.P) Examples.cyclicBroken Examples.base 5
       "main.lua" "1/2/2025" "10:00:00 AM"
     = Some (Throw (ModuleNotFound "./nowhere" "/proj/src/m.lua"))
  /\ forall moduleName from,
       ModuleNotFound "./nowhere" "/proj/src/m.lua"
       <> CircularImport moduleName from.
Proof.
  split; [exact ExampleFacts.broken_cycleReachable|].
  split; [vm_compute; reflexivity | discriminate].
Qed.

(** The diamond below the first module: d is met again while a is still
    on the stack, the build returns, and the thunk of d is in the artifact
    once. *)
Lemma diamond_dedup_witness :
  let thunkOfD :=
    "__BUNDLE['lib/d.lua'] = function()" +:+ LF +:+ "return {}" +:+ LF
    +:+ "end" +:+ LF in
  size Examples.nested < 6
  /\ wellFormedTree (np := Examples.P) Examples.nested Examples.base "main.lua"
  /\ ~ cycleReachable (np := Examples.P) Examples.nested Examples.base
         "main.lua"
  /\ exists transformedEntry st artifact,
       buildTable (np := Examples.P) Examples.nested Examples.base 6 "main.lua"
       = Some (Ok (transformedEntry, st))
       /\ JS.Object_keys (modules st)
          = [ "a.lua"; "b.lua"; "lib/d.lua"; "c.luau" ]
       /\ filter
            (fun e =>
               path_resolve (NodePath := Examples.P) Examples.base e.1
               = "/proj/src/lib/d.lua")
            (modules st)
          = [ ("lib/d.lua", "return {}") ]
       /\ reads st
          = [ "/proj/src/main.lua"; "/proj/src/a.lua"; "/proj/src/b.lua";
              "/proj/src/lib/d.lua"; "/proj/src/c.luau" ]
       /\ bundleLua (np := Examples.P) Examples.nested Examples.base 6
            "main.lua" "1/2/2025" "10:00:00 AM" = Some (Ok artifact)
       /\ occurrences thunkOfD artifact = 1
       /\ occurrences "return {}" artifact = 1.
Proof.
  intros thunkOfD.
  assert (size Examples.nested < 6) as Hsize by (vm_compute; lia).
  assert (exists t0 st0,
             buildTable (np := Examples.P) Examples.nested Examples.base 6
               "main.lua" = Some (Ok (t0, st0))
             /\ JS.Object_keys (modules st0)
                = [ "a.lua"; "b.lua"; "lib/d.lua"; "c.luau" ])
    as (t0 & st0 & Hbuild & Hkeys).
  { eexists _, _. split; vm_compute; reflexivity. }
  pose proof (buildTable_wellFormed _ _ _ _ _ _ Hbuild) as Hwf.
  pose proof (buildTable_acyclic _ _ _ _ _ _ Hbuild) as Hacyclic.
  split; [exact Hsize|]. split; [exact Hwf|]. split; [exact Hacyclic|].
  destruct (diamond_dedup (np := Examples.P) Examples.nested Examples.base 6
              "main.lua") as (Hreturns & _ & Hdedup).
  destruct (Hreturns Hsize Hwf Hacyclic) as (t & st & Hrun).
  destruct (Hdedup _ _ Hrun) as (_ & Hone & Hreads & _ & Hartifact & _).
  rewrite Hbuild in Hrun. injection Hrun as <- <-.
  exists t0, st0. eexists. split; [exact Hbuild|]. split; [exact Hkeys|].
  destruct (Hone _ ExampleFacts.nested_reaches_d)
    as (k & v & content & subModules & _ & _ & _ & Hfilter & Hread & Hparse).
  vm_compute in Hread. injection Hread as <-.
  vm_compute in Hparse. injection Hparse as <- _.
  assert (k = "lib/d.lua") as ->.
  { rewrite Hkeys in *. clear -Hfilter Hbuild.
    vm_compute in Hbuild. injection Hbuild as _ <-.
    vm_compute in Hfilter. by injection Hfilter as <-. }
  split; [exact Hfilter|]. split; [|split; [exact (Hartifact _ _)|]].
  - rewrite Hreads, Hkeys. reflexivity.
  - split.
    + clear -Hbuild. vm_compute in Hbuild. injection Hbuild as <- <-.
      vm_compute. reflexivity.
    + clear -Hbuild. vm_compute in Hbuild. injection Hbuild as <- <-.
      vm_compute. reflexivity.
Defined.

Lemma insertion_order_witness :
  size Examples.diamond < 5
  /\ is_Some (buildTable (np := Examples.P) Examples.diamond Examples.base 5
                "a.lua")
  /\ buildTable (np := Examples.P) Examples.diamond Examples.base 5 "a.lua"
     = Some (Ok (Examples.diamondEntry, Examples.diamondState))
  /\ discoveryOrder (np := Examples.P) Examples.diamond Examples.base 5 "a.lua"
     = Some [ "b.lua"; "lib/d.lua"; "c.luau" ].
Proof.
  assert (size Examples.diamond < 5) as Hsize by (vm_compute; lia).
  assert (buildTable (np := Examples.P) Examples.diamond Examples.base 5 "a.lua"
          = Some (Ok (Examples.diamondEntry, Examples.diamondState))) as Hbuild
    by (vm_compute; reflexivity).
  destruct (insertion_order (np := Examples.P) Examples.diamond Examples.base 5
              "a.lua") as [Hreturns Horder].
  split; [exact Hsize|]. split; [exact (Hreturns Hsize)|].
  split; [exact Hbuild|].
  exact (proj1 (Horder _ _ Hbuild)).
Defined.

Lemma entry_outside_table_witness :
  size Examples.simple < 3
  /\ is_Some (bundleLua (np := Examples.P) Examples.simple Examples.base 3
                "main.luau" "1/2/2025" "10:00:00 AM")
  /\ bundleLua (np := Examples.P) Examples.simple Examples.base 3 "main.luau"
       "1/2/2025" "10:00:00 AM"
     = Some (Ok Examples.simpleArtifact)
  /\ exists before,
       Examples.simpleArtifact
       = before +:+ LF +:+ "-- Entry point" +:+ LF
         +:+ "local util = import(" +:+ DQ +:+ "util.lua" +:+ DQ +:+ ")" +:+ LF
         +:+ "print(util.answer)".
Proof.
  assert (size Examples.simple < 3) as Hsize by (vm_compute; lia).
  assert (bundleLua (np := Examples.P) Examples.simple Examples.base 3
            "main.luau" "1/2/2025" "10:00:00 AM"
          = Some (Ok Examples.simpleArtifact)) as Hbundle
    by (vm_compute; reflexivity).
  destruct (entry_outside_table (np := Examples.P) Examples.simple Examples.base
              3 "main.luau" "1/2/2025" "10:00:00 AM") as [Hreturns Hentry].
  split; [exact Hsize|]. split; [exact (Hreturns Hsize)|].
  split; [exact Hbundle|].
  destruct (Hentry _ Hbundle)
    as (content & t & imports & st & Hread & Hparse & _ & _ & _ & before & Hend).
  exists before. vm_compute in Hread. injection Hread as <-.
  vm_compute in Hparse. injection Hparse as <- _. exact Hend.
Defined.

(** ** The generated loader and bridge *)

Section LuaFacts.
Import Lua.
Context {heap : Type}
        (call : nat -> list value -> @world heap -> @outcome heap)
        (hostRequire : string -> @world heap -> @outcome heap).

(** The loader fails for a key that the table does not hold. *)
Lemma import_absent name (w : @world heap) :
  BUNDLE w !! name = None ->
  import call name w
  = ([], Raises ("Module " +:+ DQ +:+ name +:+ DQ +:+ " not found in bundle") w).
Proof. intros Hname. unfold import, index. by rewrite Hname. Qed.

(** X13.  Where memoization holds: the body returns a value that is neither
    [nil], nor [false], nor a function.  The body runs once, both calls
    return its value, and the table holds the value afterwards. *)
Lemma import_memoizes name f v (w w1 : @world heap) :
  BUNDLE w !! name = Some (Function f) ->
  call f [] w = Returns v w1 ->
  truthy v = true ->
  type v <> "function" ->
  let w2 := setBundle (<[name := v]> (BUNDLE w1)) w1 in
  importTwice call name w
  = ([Called f []], Returns v w2, Some (Returns v w2))
  /\ BUNDLE w2 !! name = Some v.
Proof.
  intros Hname Hcall Htruthy Htype w2.
  assert (assign (BUNDLE w1) name v = <[name := v]> (BUNDLE w1)) as Hassign
    by (by destruct v).
  assert (BUNDLE w2 !! name = Some v) as Hstored
    by (apply lookup_insert_eq).
  split; [|done].
  unfold importTwice, import at 1, index. rewrite Hname. cbn.
  rewrite Hcall, Hassign. fold w2.
  unfold import, index. rewrite Hstored. cbn. rewrite Htruthy.
  by destruct v.
Qed.

(** C7, as amended.  The bridge sets the thread identity to 2 and then
    calls the host loader.  If the loader raises, the error goes on to the
    caller and the bridge sets nothing back.  If the loader returns a value
    other than [nil] and the continuation is a function, the continuation
    is called with the value while the identity is still the one the loader
    left; if it raises, the error goes on and nothing is set back.
    Otherwise the identity is set to 7 (whatever it was on entry), and the
    bridge returns the value, or raises its own error when the value is
    [nil]; with [nil] the continuation is not called. *)
Theorem game_require_behaviour module callback (w : @world heap) :
  (forall msg w2,
      hostRequire module (setthreadidentity 2 w) = Raises msg w2 ->
      game_require call hostRequire module callback w
      = ([SetThreadIdentity 2; HostRequire module], Raises msg w2))
  /\ (forall w2,
        hostRequire module (setthreadidentity 2 w) = Returns Nil w2 ->
        game_require call hostRequire module callback w
        = ([SetThreadIdentity 2; HostRequire module; SetThreadIdentity 7],
           Raises ("Failed to require game module " +:+ DQ +:+ module +:+ DQ)
             (setthreadidentity 7 w2)))
  /\ (forall v w2,
        hostRequire module (setthreadidentity 2 w) = Returns v w2 ->
        v <> Nil ->
        (forall f, callback <> Function f) ->
        game_require call hostRequire module callback w
        = ([SetThreadIdentity 2; HostRequire module; SetThreadIdentity 7],
           Returns v (setthreadidentity 7 w2)))
  /\ (forall v w2 f r w3,
        hostRequire module (setthreadidentity 2 w) = Returns v w2 ->
        v <> Nil ->
        callback = Function f ->
        call f [v] w2 = Returns r w3 ->
        game_require call hostRequire module callback w
        = ([SetThreadIdentity 2; HostRequire module; Called f [v];
            SetThreadIdentity 7],
           Returns v (setthreadidentity 7 w3)))
  /\ (forall v w2 f msg w3,
        hostRequire module (setthreadidentity 2 w) = Returns v w2 ->
        v <> Nil ->
        callback = Function f ->
        call f [v] w2 = Raises msg w3 ->
        game_require call hostRequire module callback w
        = ([SetThreadIdentity 2; HostRequire module; Called f [v]],
           Raises msg w3)).
Proof.
  unfold game_require. repeat split.
  - by intros msg w2 ->.
  - intros w2 ->. by destruct callback.
  - intros v w2 -> Hv Hcb. destruct callback; try done; [by destruct v..|].
    by destruct (Hcb f).
  - intros v w2 f r w3 -> Hv -> Hcall. destruct v; [done|..]; by rewrite Hcall.
  - intros v w2 f msg w3 -> Hv -> Hcall. destruct v; [done|..]; by rewrite Hcall.
Qed.

End LuaFacts.

(** C6 on two modules.  A module body that returns nothing runs once, but
    the second call of the loader raises the error for an unknown module
    instead of returning the same value.  A module body that returns a
    function runs once, but the second call of the loader calls the returned
    function and returns what that call gives. *)
Theorem import_not_memoized :
  (let '(events, first, second) :=
     Lua.importTwice LuaExamples.call "silent.lua" LuaExamples.start in
   events = [Lua.Called 1 []]
   /\ LuaExamples.valueOf first = Some Lua.Nil
   /\ (LuaExamples.errorOf <$> second)
      = Some (Some ("Module " +:+ DQ +:+ "silent.lua" +:+ DQ
                    +:+ " not found in bundle")))
  /\ (let '(events, first, second) :=
        Lua.importTwice LuaExamples.call "factory.lua" LuaExamples.start in
      events = [Lua.Called 2 []; Lua.Called 3 []]
      /\ LuaExamples.valueOf first = Some (Lua.Function 3)
      /\ (LuaExamples.valueOf <$> second) = Some (Some (Lua.Number 42))).
Proof. split; vm_compute; repeat split; reflexivity. Qed.

(** The counter module of the specification is memoized: one run, the same
    value twice. *)
Lemma import_memoizes_witness :
  let '(events, first, second) :=
    Lua.importTwice LuaExamples.call "counter.lua" LuaExamples.start in
  events = [Lua.Called 0 []]
  /\ LuaExamples.valueOf first = Some (Lua.Number 1)
  /\ (LuaExamples.valueOf <$> second) = Some (Some (Lua.Number 1)).
Proof.
  destruct (import_memoizes LuaExamples.call "counter.lua" 0 (Lua.Number 1)
              LuaExamples.start (LuaExamples.bump LuaExamples.start)
              eq_refl eq_refl eq_refl ltac:(discriminate)) as [-> _].
  repeat split; reflexivity.
Defined.

Lemma game_require_behaviour_witness :
  (LuaExamples.hostRequire "Players"
     (Lua.setthreadidentity 2 LuaExamples.start)
   = Lua.Returns (Lua.Str "players") (Lua.setthreadidentity 2 LuaExamples.start)
   /\ Lua.game_require LuaExamples.call LuaExamples.hostRequire "Players"
        (Lua.Function 4) LuaExamples.start
      = ([Lua.SetThreadIdentity 2; Lua.HostRequire "Players";
          Lua.Called 4 [Lua.Str "players"]; Lua.SetThreadIdentity 7],
         Lua.Returns (Lua.Str "players")
           (Lua.setthreadidentity 7
              (LuaExamples.noteIdentity
                 (Lua.setthreadidentity 2 LuaExamples.start)))))
  /\ (LuaExamples.hostRequire "Nothing"
        (Lua.setthreadidentity 2 LuaExamples.start)
      = Lua.Returns Lua.Nil (Lua.setthreadidentity 2 LuaExamples.start)
      /\ Lua.game_require LuaExamples.call LuaExamples.hostRequire "Nothing"
           (Lua.Function 4) LuaExamples.start
         = ([Lua.SetThreadIdentity 2; Lua.HostRequire "Nothing";
             Lua.SetThreadIdentity 7],
            Lua.Raises ("Failed to require game module " +:+ DQ +:+ "Nothing"
                        +:+ DQ)
              (Lua.setthreadidentity 7
                 (Lua.setthreadidentity 2 LuaExamples.start))))
  /\ (LuaExamples.hostRequire "Workspace"
        (Lua.setthreadidentity 2 LuaExamples.start)
      = Lua.Raises "unknown game module"
          (Lua.setthreadidentity 2 LuaExamples.start)
      /\ Lua.game_require LuaExamples.call LuaExamples.hostRequire "Workspace"
           (Lua.Function 4) LuaExamples.start
         = ([Lua.SetThreadIdentity 2; Lua.HostRequire "Workspace"],
            Lua.Raises "unknown game module"
              (Lua.setthreadidentity 2 LuaExamples.start))).
Proof.
  split; [|split]; (split; [reflexivity|]).
  - exact (proj1 (proj2 (proj2 (proj2
             (game_require_behaviour LuaExamples.call LuaExamples.hostRequire
                "Players" (Lua.Function 4) LuaExamples.start))))
             (Lua.Str "players") _ 4 Lua.Nil _ eq_refl ltac:(discriminate)
             eq_refl eq_refl).
  - exact (proj1 (proj2
             (game_require_behaviour LuaExamples.call LuaExamples.hostRequire
                "Nothing" (Lua.Function 4) LuaExamples.start))
             _ eq_refl).
  - exact (proj1
             (game_require_behaviour LuaExamples.call LuaExamples.hostRequire
                "Workspace" (Lua.Function 4) LuaExamples.start)
             _ _ eq_refl).
Defined.

(** C7, as stated, fails on three counts.  The continuation runs before the
    identity is set back: it notes 2 as the identity it runs under, and its
    call comes before [setthreadidentity(7)].  When the host loader raises,
    the identity stays 2.  And what is set afterwards is 7, not the identity
    the caller had, 8 here. *)
Lemma game_require_counterexample :
  (let '(events, o) :=
     Lua.game_require LuaExamples.call LuaExamples.hostRequire "Players"
       (Lua.Function 4) LuaExamples.start in
   events = [Lua.SetThreadIdentity 2; Lua.HostRequire "Players";
             Lua.Called 4 [Lua.Str "players"]; Lua.SetThreadIdentity 7]
   /\ Lua.store (Lua.worldOf o) = 2
   /\ Lua.identity LuaExamples.start = 8%Z
   /\ Lua.identity (Lua.worldOf o) = 7%Z)
  /\ (let '(events, o) :=
        Lua.game_require LuaExamples.call LuaExamples.hostRequire "Workspace"
          (Lua.Function 4) LuaExamples.start in
      LuaExamples.errorOf o = Some "unknown game module"
      /\ Lua.identity (Lua.worldOf o) = 2%Z).
Proof. split; vm_compute; repeat split; reflexivity. Qed.

(** * Further properties *)

(** ** The content transformer on whole texts *)

Lemma contains_cons_false (sub : string) (c : ascii) (s : string) :
  contains sub (String c s) = false -> contains sub s = false.
Proof. cbn [contains]. by intros [_ ?]%orb_false_iff. Qed.

Lemma prefix_dropPrefix (p s r : string) :
  JS.dropPrefix p s = Some r -> String.prefix p s = true.
Proof. intros ->%RegexFacts.dropPrefix_spec. apply prefix_app. Qed.

(** A text that does not hold the word require holds no call site. *)
Lemma scanFrom_plain prev s :
  contains "require" s = false -> Regex.scanFrom prev s = plain s.
Proof.
  revert prev. induction s as [|c s IH]; intros prev Hs; [done|].
  assert (Regex.requirePattern_exec prev (String c s) = None) as Hex.
  { unfold Regex.requirePattern_exec. destruct (JS.wordBoundary _ _); [|done].
    destruct (JS.dropPrefix "require" (String c s)) as [r|] eqn:Hdrop; [|done].
    apply prefix_dropPrefix, contains_here in Hdrop. congruence. }
  rewrite RegexFacts.scanFrom_chr by done. cbn [plain]. f_equal.
  apply IH. by eapply contains_cons_false.
Qed.

Section TransformerWhole.
Context {np : NodePath} (fs : gmap string node) (baseDir : string).

(** X1.  A text in which the word require does not occur is returned as it
    is, with an empty dependency list, whatever the file system holds. *)
Theorem parseAndTransform_no_require content cur :
  contains "require" content = false ->
  parseAndTransform fs baseDir content cur = Ok (content, []).
Proof.
  intros Hc. unfold parseAndTransform, Regex.scan.
  rewrite scanFrom_plain by done. apply replacePieces_plain.
Qed.

Lemma replacePieces_Ok cur ps acc out subs :
  replacePieces fs baseDir cur ps acc = Ok (out, subs) <->
  exists names,
    subs = acc ++ names
    /\ Forall2 (fun lit name => resolveModulePath fs baseDir cur lit = Ok name)
         (literals ps) names
    /\ out = render ps names.
Proof.
  revert acc out subs. induction ps as [|[c|arg] ps IH]; intros acc out subs.
  - cbn. split.
    + intros [= <- <-]. exists []. by rewrite app_nil_r.
    + intros (names & -> & ->%Forall2_nil_inv_l & ->). by rewrite app_nil_r.
  - cbn [replacePieces literals render]. split.
    + destruct (replacePieces fs baseDir cur ps acc) as [[o s]|e] eqn:Hps;
        [|done]. intros [= <- <-].
      apply IH in Hps as (names & -> & Hall & ->). by exists names.
    + intros (names & -> & Hall & ->).
      assert (replacePieces fs baseDir cur ps acc
              = Ok (render ps names, acc ++ names)) as ->; [|done].
      apply IH. by exists names.
  - cbn [replacePieces literals render]. unfold replacer.
    destruct (Regex.quotedMatch arg) as [lit|].
    + destruct (resolveModulePath fs baseDir cur lit) as [r|e] eqn:Hres.
      * split.
        -- destruct (replacePieces fs baseDir cur ps (JS.push acc r))
             as [[o s]|e] eqn:Hps; [|done]. intros [= <- <-].
           apply IH in Hps as (names & -> & Hall & ->).
           exists (r :: names). unfold JS.push. rewrite <-app_assoc.
           split; [done|]. split; [by constructor | done].
        -- intros (names & -> & Hall & ->).
           apply Forall2_cons_inv_l in Hall as (r' & names' & Hr & Hall & ->).
           rewrite Hres in Hr. injection Hr as <-.
           assert (replacePieces fs baseDir cur ps (JS.push acc r)
                   = Ok (render ps names', JS.push acc r ++ names')) as ->.
           { apply IH. by exists names'. }
           unfold JS.push. by rewrite <-app_assoc.
      * split; [done|]. intros (names & _ & Hall & _).
        apply Forall2_cons_inv_l in Hall as (r' & names' & Hr & _).
        congruence.
    + split.
      * destruct (replacePieces fs baseDir cur ps acc) as [[o s]|e] eqn:Hps;
          [|done]. intros [= <- <-].
        apply IH in Hps as (names & -> & Hall & ->). by exists names.
      * intros (names & -> & Hall & ->).
        assert (replacePieces fs baseDir cur ps acc
                = Ok (render ps names, acc ++ names)) as ->; [|done].
        apply IH. by exists names.
Qed.

Lemma replacePieces_Throw cur ps acc e :
  replacePieces fs baseDir cur ps acc = Throw e <->
  exists pre lit post names,
    literals ps = pre ++ lit :: post
    /\ Forall2 (fun lit name => resolveModulePath fs baseDir cur lit = Ok name)
         pre names
    /\ resolveModulePath fs baseDir cur lit = Throw e.
Proof.
  revert acc. induction ps as [|[c|arg] ps IH]; intros acc.
  - cbn. split; [done|]. intros (pre & lit & post & _ & Hl & _).
    by destruct pre.
  - cbn [replacePieces literals]. rewrite <-(IH acc).
    by destruct (replacePieces fs baseDir cur ps acc) as [[o s]|e'].
  - cbn [replacePieces literals]. unfold replacer.
    destruct (Regex.quotedMatch arg) as [lit|].
    + destruct (resolveModulePath fs baseDir cur lit) as [r|e'] eqn:Hres.
      * split.
        -- destruct (replacePieces fs baseDir cur ps (JS.push acc r))
             as [[o s]|e''] eqn:Hps; [done|]. intros [= ->].
           apply IH in Hps as (pre & lit' & post & names & Hl & Hall & Hthrow).
           exists (lit :: pre), lit', post, (r :: names). rewrite Hl.
           split; [done|]. split; [by constructor | done].
        -- intros (pre & lit' & post & names & Hl & Hall & Hthrow).
           destruct pre as [|l pre]; cbn in Hl; injection Hl as -> Hl.
           { congruence. }
           apply Forall2_cons_inv_l in Hall as (r' & names' & _ & Hall & ->).
           assert (replacePieces fs baseDir cur ps (JS.push acc r) = Throw e)
             as ->; [|done].
           apply IH. by exists pre, lit', post, names'.
      * split.
        -- intros [= ->]. exists [], lit, (literals ps), [].
           split; [done|]. split; [constructor | done].
        -- intros (pre & lit' & post & names & Hl & Hall & Hthrow).
           destruct pre as [|l pre]; cbn in Hl; injection Hl as -> Hl.
           { congruence. }
           apply Forall2_cons_inv_l in Hall as (r' & names' & Hr & _).
           congruence.
    + rewrite <-(IH acc).
      by destruct (replacePieces fs baseDir cur ps acc) as [[o s]|e'].
Qed.

(** X2.  The transformer returns exactly when every literal of the text
    resolves; the dependency list then holds the resolved names of the
    literals in the order of the text, one per call site and repetitions
    kept, and the rewritten text is the original with each call site
    replaced. *)
Theorem parseAndTransform_Ok content cur out subs :
  parseAndTransform fs baseDir content cur = Ok (out, subs) <->
  Forall2 (fun lit name => resolveModulePath fs baseDir cur lit = Ok name)
    (literals (Regex.scan content)) subs
  /\ out = render (Regex.scan content) subs.
Proof.
  unfold parseAndTransform. rewrite replacePieces_Ok. split.
  - by intros (names & -> & Hall & ->).
  - intros [Hall ->]. by exists subs.
Qed.

(** X3.  The transformer throws exactly when some literal of the text does
    not resolve, and what it throws is the exception of the resolver for
    the first such literal. *)
Theorem parseAndTransform_Throw content cur e :
  parseAndTransform fs baseDir content cur = Throw e <->
  exists pre lit post names,
    literals (Regex.scan content) = pre ++ lit :: post
    /\ Forall2 (fun lit name => resolveModulePath fs baseDir cur lit = Ok name)
         pre names
    /\ resolveModulePath fs baseDir cur lit = Throw e.
Proof. apply replacePieces_Throw. Qed.

End TransformerWhole.

(** ** A literal followed by more text inside the parentheses *)

Lemma occurs_app (c : ascii) (a b : string) :
  occurs c (a +:+ b) = occurs c a || occurs c b.
Proof. induction a as [|x a IH]; cbn; [done|]. by rewrite IH, orb_assoc. Qed.

Lemma isQuote_not_space (c : ascii) :
  Regex.isQuote c = true -> JS.isSpace c = false.
Proof.
  unfold Regex.isQuote.
  intros [->%Ascii.eqb_eq | ->%Ascii.eqb_eq]%orb_true_iff; done.
Qed.

Lemma isQuote_not_paren (c : ascii) :
  Regex.isQuote c = true -> Ascii.eqb c ")"%char = false.
Proof.
  unfold Regex.isQuote.
  intros [->%Ascii.eqb_eq | ->%Ascii.eqb_eq]%orb_true_iff; done.
Qed.

(** A closing quote that is not the last code unit keeps the literal pattern
    from matching. *)
Lemma quotedBody_quote_inside (pre : string) (q : ascii) (rest : string) :
  Regex.isQuote q = true -> rest <> EmptyString ->
  Regex.quotedBody (pre +:+ String q rest) = None.
Proof.
  intros Hq Hrest. induction pre as [|c pre IH]; cbn.
  - rewrite Hq. by destruct rest.
  - destruct (Regex.isQuote c).
    + by destruct pre.
    + by rewrite IH.
Qed.

Section TrailingText.
Context {np : NodePath} (fs : gmap string node) (baseDir : string).

(** X4.  Leading white space inside the parentheses is skipped, but
    whatever follows the closing quote is kept in the argument.  Wherever a
    call site may begin, that is at the start of the text or behind a code
    unit that is no letter, digit or underscore, a quoted text followed by
    anything before the closing parenthesis, be it only a space, is captured
    with what follows it; such an argument is no literal: the replacer
    rewrites the call to [import] of the argument as it stands, resolves
    nothing and records no dependency.  For a text that starts with such a
    call this is the start of what the transformer returns. *)
Theorem trailing_text_not_literal cur prev ws1 ws2 q1 body q2 tail rest
    subModules :
  from_option JS.isWordChar false prev = false ->
  allChars JS.isSpace ws1 = true ->
  allChars JS.isSpace ws2 = true ->
  Regex.isQuote q1 = true ->
  Regex.isQuote q2 = true ->
  occurs ")"%char body = false ->
  occurs ")"%char tail = false ->
  tail <> EmptyString ->
  let arg := String q1 (body +:+ String q2 tail) in
  let site :=
    "require" +:+ ws1 +:+ String "("%char (ws2 +:+ arg +:+ String ")"%char rest)
  in
  Regex.scanFrom prev site
  = Regex.Call arg :: Regex.scanFrom (Some ")"%char) rest
  /\ replacer fs baseDir cur arg subModules
     = Ok ("import(" +:+ arg +:+ ")", subModules)
  /\ parseAndTransform fs baseDir site cur
     = andThen (Ok ("import(" +:+ arg +:+ ")", []))
         (replacePieces fs baseDir cur (Regex.scanFrom (Some ")"%char) rest) []).
Proof.
  intros Hprev Hws1 Hws2 Hq1 Hq2 Hbody Htail Hne arg site.
  assert (Regex.quotedMatch arg = None) as Hnone.
  { unfold arg, Regex.quotedMatch. rewrite Hq1.
    by rewrite quotedBody_quote_inside. }
  assert (forall before,
            from_option JS.isWordChar false before = false ->
            Regex.scanFrom before site
            = Regex.Call arg :: Regex.scanFrom (Some ")"%char) rest) as Hscan.
  { intros before Hbefore. apply RegexFacts.scanFrom_call.
    apply RegexFacts.requirePattern_exec_site; [done..| |].
    - unfold arg. cbn. by apply isQuote_not_space.
    - unfold arg. cbn [occurs]. rewrite occurs_app. cbn [occurs].
      by rewrite (isQuote_not_paren q1), (isQuote_not_paren q2), Hbody, Htail. }
  split; [by apply Hscan|]. split.
  - unfold replacer. by rewrite Hnone.
  - rewrite (parseAndTransform_site fs baseDir site cur [] arg
               (Regex.scanFrom (Some ")"%char) rest)) by (by apply Hscan).
    unfold replacer. rewrite Hnone. cbn.
    by destruct (replacePieces fs baseDir cur _ []) as [[o2 n2]|e2].
Qed.

End TrailingText.

(** ** The type-definition diagnostic *)

Module TypeRegexFacts.
Import JS TypeRegex.

Lemma skipSpaces_suffix (s : string) :
  exists ws, s = ws +:+ skipSpaces s.
Proof.
  induction s as [|c s [ws IH]]; [by exists EmptyString|]. cbn.
  destruct (isSpace c); [|by exists EmptyString].
  exists (String c ws). cbn. by rewrite <-IH.
Qed.

Lemma skipSpaces1_suffix (s r : string) :
  skipSpaces1 s = Some r -> exists ws, s = ws +:+ r.
Proof.
  destruct s as [|c s]; [done|]. cbn. destruct (isSpace c); [|done].
  intros [= <-]. destruct (skipSpaces_suffix s) as [ws Hws].
  exists (String c ws). cbn. by rewrite <-Hws.
Qed.

Lemma takeWord_spec (s w r : string) :
  takeWord s = (w, r) -> s = w +:+ r /\ allChars isWordChar w = true.
Proof.
  revert w r. induction s as [|c s IH]; intros w r; cbn.
  - by intros [= <- <-].
  - destruct (isWordChar c) eqn:Hc.
    + destruct (takeWord s) as [w' r'] eqn:Hs. intros [= <- <-].
      destruct (IH w' r' eq_refl) as [-> Hw]. cbn. by rewrite Hc.
    + by intros [= <- <-].
Qed.

Lemma takeWord_app (w r : string) :
  allChars isWordChar w = true ->
  from_option isWordChar false (head r) = false ->
  takeWord (w +:+ r) = (w, r).
Proof.
  intros Hw Hr. induction w as [|c w IH]; cbn in *.
  - destruct r as [|x r]; [done|]. cbn in *. by rewrite Hr.
  - apply andb_true_iff in Hw as [-> Hw]. by rewrite IH.
Qed.

Lemma skipSpaces1_app (ws s : string) :
  allChars isSpace ws = true -> ws <> EmptyString ->
  from_option isSpace false (head s) = false ->
  skipSpaces1 (ws +:+ s) = Some s.
Proof.
  intros Hws Hne Hs. destruct ws as [|c ws]; [done|]. cbn in *.
  apply andb_true_iff in Hws as [-> Hws].
  by rewrite RegexFacts.skipSpaces_app.
Qed.

(** What a declaration consumes starts with the word type and is not
    empty. *)
Lemma declaration_spec (s name rest : string) :
  declaration s = Some (name, rest) ->
  String.prefix "type" s = true
  /\ name <> EmptyString
  /\ allChars isWordChar name = true
  /\ String.length rest < String.length s.
Proof.
  unfold declaration.
  destruct (dropPrefix "type" s) as [r1|] eqn:Hdrop; [|done].
  pose proof (prefix_dropPrefix _ _ _ Hdrop) as Hprefix.
  apply RegexFacts.dropPrefix_spec in Hdrop as ->.
  destruct (skipSpaces1 r1) as [r2|] eqn:Hr1; [|done].
  apply skipSpaces1_suffix in Hr1 as [ws ->].
  destruct (takeWord r2) as [w r3] eqn:Hword.
  apply takeWord_spec in Hword as [-> Hw].
  destruct w as [|c w]; [done|].
  destruct (skipSpaces_suffix r3) as [ws2 Hr3].
  destruct (skipSpaces r3) as [|x r4] eqn:Hskip; [done|].
  destruct (Ascii.eqb_spec x "="%char) as [->|Hx].
  - intros [= <- <-]. split; [done|]. split; [done|]. split; [done|].
    rewrite Hr3. cbn.
    repeat (rewrite string_length_app || cbn [String.length]). lia.
  - destruct x as [[] [] [] [] [] [] [] []]; done.
Qed.

Lemma exportOrType_spec (s : string) (isExport : bool) (name rest : string) :
  exportOrType s = Some (isExport, name, rest) ->
  contains "type" s = true
  /\ name <> EmptyString
  /\ allChars isWordChar name = true
  /\ String.length rest < String.length s.
Proof.
  unfold exportOrType.
  destruct (dropPrefix "export" s) as [r1|] eqn:Hdrop.
  - destruct (skipSpaces1 r1) as [r2|] eqn:Hr1.
    + destruct (declaration r2) as [[n r]|] eqn:Hdecl.
      * intros [= <- <- <-].
        apply declaration_spec in Hdecl as (Hp & Hn & Hw & Hlen).
        apply RegexFacts.dropPrefix_spec in Hdrop as ->.
        apply skipSpaces1_suffix in Hr1 as [ws ->].
        split; [|split; [done|split; [done|]]].
        -- apply (contains_app_l "type" "export"), contains_app_l.
           by apply contains_here.
        -- cbn. repeat (rewrite string_length_app || cbn [String.length]). lia.
      * destruct (declaration s) as [[n r]|] eqn:Hdecl2; [|done].
        intros [= <- <- <-].
        apply declaration_spec in Hdecl2 as (Hp & Hn & Hw & Hlen).
        split; [by apply contains_here | done].
    + destruct (declaration s) as [[n r]|] eqn:Hdecl2; [|done].
      intros [= <- <- <-].
      apply declaration_spec in Hdecl2 as (Hp & Hn & Hw & Hlen).
      split; [by apply contains_here | done].
  - destruct (declaration s) as [[n r]|] eqn:Hdecl2; [|done].
    intros [= <- <- <-].
    apply declaration_spec in Hdecl2 as (Hp & Hn & Hw & Hlen).
    split; [by apply contains_here | done].
Qed.

Lemma typeRegex_exec_spec prev s isExport name rest :
  typeRegex_exec prev s = Some (isExport, name, rest) ->
  contains "type" s = true
  /\ name <> EmptyString
  /\ allChars isWordChar name = true
  /\ String.length rest < String.length s.
Proof.
  unfold typeRegex_exec.
  assert (match s with
          | String c s' => if isSpace c then exportOrType s' else None
          | EmptyString => None
          end = Some (isExport, name, rest) ->
          contains "type" s = true
          /\ name <> EmptyString
          /\ allChars isWordChar name = true
          /\ String.length rest < String.length s) as Hspace.
  { destruct s as [|c s]; [done|]. destruct (isSpace c); [|done].
    intros (Hc & Hn & Hw & Hlen)%exportOrType_spec.
    split; [|split; [done|split; [done|cbn; lia]]].
    cbn [contains]. rewrite Hc. apply orb_true_r. }
  destruct (lineStart prev); [|done].
  destruct (exportOrType s) as [[[e n] r]|] eqn:Hex; [|done].
  intros [= <- <- <-]. by apply exportOrType_spec in Hex.
Qed.

Lemma typeMatchesFuel_enough fuel prev s :
  String.length s < fuel ->
  typeMatchesFuel fuel prev s = typeMatchesFrom prev s.
Proof.
  unfold typeMatchesFrom.
  remember (String.length s) as n eqn:Hn.
  revert fuel prev s Hn.
  induction n as [n IH] using lt_wf_ind. intros fuel prev s -> Hlt.
  destruct fuel as [|fuel]; [lia|]. cbn [typeMatchesFuel].
  destruct (typeRegex_exec prev s) as [[[e name] rest]|] eqn:Hex.
  - apply typeRegex_exec_spec in Hex as (_ & _ & _ & Hlen). f_equal.
    trans (typeMatchesFuel (S (String.length rest)) (Some "="%char) rest).
    + apply (IH (String.length rest)); [done | done | lia].
    + symmetry. apply (IH (String.length rest)); [done | done | lia].
  - destruct s as [|c s]; [done|]. cbn [String.length] in *.
    trans (typeMatchesFuel (S (String.length s)) (Some c) s).
    + apply (IH (String.length s)); [lia | done | lia].
    + symmetry. apply (IH (String.length s)); [lia | done | lia].
Qed.

Lemma typeMatchesFrom_match prev s isExport name rest :
  typeRegex_exec prev s = Some (isExport, name, rest) ->
  typeMatchesFrom prev s
  = (isExport, name) :: typeMatchesFrom (Some "="%char) rest.
Proof.
  intros Hex. unfold typeMatchesFrom at 1. cbn [typeMatchesFuel].
  rewrite Hex. f_equal. apply typeMatchesFuel_enough.
  by apply typeRegex_exec_spec in Hex as (_ & _ & _ & Hlen).
Qed.

Lemma typeMatchesFrom_none prev s :
  contains "type" s = false -> typeMatchesFrom prev s = [].
Proof.
  unfold typeMatchesFrom. revert prev.
  induction s as [|c s IH]; intros prev Hs; cbn [String.length typeMatchesFuel].
  - by destruct (typeRegex_exec prev EmptyString) as [[[e n] r]|] eqn:Hex;
      [apply typeRegex_exec_spec in Hex as (? & _)|].
  - destruct (typeRegex_exec prev (String c s)) as [[[e n] r]|] eqn:Hex.
    { apply typeRegex_exec_spec in Hex as (? & _). congruence. }
    apply IH. by eapply contains_cons_false.
Qed.

Lemma typeMatchesFuel_names fuel prev s m :
  m ∈ typeMatchesFuel fuel prev s ->
  m.2 <> EmptyString /\ allChars isWordChar m.2 = true.
Proof.
  revert prev s. induction fuel as [|fuel IH]; intros prev s; cbn.
  { by intros ?%elem_of_nil. }
  destruct (typeRegex_exec prev s) as [[[e n] r]|] eqn:Hex.
  - intros [-> |Hm]%elem_of_cons; [|by eapply IH].
    by apply typeRegex_exec_spec in Hex as (_ & ? & ? & _).
  - destruct s as [|c s]; [by intros ?%elem_of_nil | by eapply IH].
Qed.

Lemma isWordChar_not_space (c : ascii) :
  isWordChar c = true -> isSpace c = false.
Proof. destruct c as [[] [] [] [] [] [] [] []]; done. Qed.

Lemma isSpace_not_word (c : ascii) :
  isSpace c = true -> isWordChar c = false.
Proof. destruct c as [[] [] [] [] [] [] [] []]; done. Qed.

(** The text of a declaration is matched as one. *)
Lemma declaration_intro ws1 name ws2 rest :
  allChars isSpace ws1 = true -> ws1 <> EmptyString ->
  allChars isWordChar name = true -> name <> EmptyString ->
  allChars isSpace ws2 = true ->
  declaration ("type" +:+ ws1 +:+ name +:+ ws2 +:+ String "="%char rest)
  = Some (name, rest).
Proof.
  intros Hws1 Hne1 Hname Hne Hws2. unfold declaration.
  assert (dropPrefix "type"
            ("type" +:+ ws1 +:+ name +:+ ws2 +:+ String "="%char rest)
          = Some (ws1 +:+ name +:+ ws2 +:+ String "="%char rest)) as ->
    by (by apply RegexFacts.dropPrefix_spec).
  rewrite skipSpaces1_app; [|done..|].
  2:{ destruct name as [|c name]; [done|]. cbn in *.
      apply andb_true_iff in Hname as [Hc _]. by apply isWordChar_not_space. }
  rewrite takeWord_app; [|done|].
  2:{ destruct ws2 as [|c ws2]; [done|]. cbn in *.
      apply andb_true_iff in Hws2 as [Hc _]. by apply isSpace_not_word. }
  destruct name as [|c name]; [done|].
  by rewrite RegexFacts.skipSpaces_app.
Qed.

End TypeRegexFacts.

(** X5.  A text in which the word type does not occur gives no warning. *)
Theorem warnOnTypeDefinitions_silent luaContent filePath :
  contains "type" luaContent = false ->
  warnOnTypeDefinitions luaContent filePath = [].
Proof.
  intros Hc. unfold warnOnTypeDefinitions.
  by rewrite TypeRegexFacts.typeMatchesFrom_none.
Qed.

(** X6.  Every warning is one of the two lines of the source, for a name
    that is not empty and made of letters, digits and underscores, and
    names the file it was given. *)
Theorem warnOnTypeDefinitions_lines luaContent filePath line :
  line ∈ warnOnTypeDefinitions luaContent filePath ->
  exists isExport name,
    line = warnLine filePath (isExport, name)
    /\ name <> EmptyString
    /\ allChars JS.isWordChar name = true
    /\ contains filePath line = true.
Proof.
  unfold warnOnTypeDefinitions.
  intros ([isExport name] & -> & Hm)%list_elem_of_fmap.
  apply TypeRegexFacts.typeMatchesFuel_names in Hm as [Hne Hw].
  exists isExport, name. repeat split; [done..|].
  unfold warnLine. do 10 apply contains_app_l. apply contains_app.
Qed.

(** X7.  When the loop stands at the start of the text or behind a line
    break and the text there is the word type, white space, a name, optional
    white space and an equals sign, the name is reported as a type; when the
    word export and white space (line breaks included) come first, it is
    reported as an exported type.  In both cases the search goes on behind
    the equals sign.  For a text that starts with such a declaration this
    gives the first warning of the module. *)
Theorem warnOnTypeDefinitions_declaration prev ws0 ws1 name ws2 rest filePath :
  TypeRegex.lineStart prev = true ->
  allChars JS.isSpace ws0 = true -> ws0 <> EmptyString ->
  allChars JS.isSpace ws1 = true -> ws1 <> EmptyString ->
  allChars JS.isWordChar name = true -> name <> EmptyString ->
  allChars JS.isSpace ws2 = true ->
  let decl := "type" +:+ ws1 +:+ name +:+ ws2 +:+ String "="%char rest in
  let later :=
    warnLine filePath <$> TypeRegex.typeMatchesFrom (Some "="%char) rest in
  TypeRegex.typeMatchesFrom prev decl
  = (false, name) :: TypeRegex.typeMatchesFrom (Some "="%char) rest
  /\ TypeRegex.typeMatchesFrom prev ("export" +:+ ws0 +:+ decl)
     = (true, name) :: TypeRegex.typeMatchesFrom (Some "="%char) rest
  /\ warnOnTypeDefinitions decl filePath
     = warnLine filePath (false, name) :: later
  /\ warnOnTypeDefinitions ("export" +:+ ws0 +:+ decl) filePath
     = warnLine filePath (true, name) :: later.
Proof.
  intros Hprev Hws0 Hne0 Hws1 Hne1 Hname Hne Hws2 decl later.
  pose proof (TypeRegexFacts.declaration_intro ws1 name ws2 rest
                Hws1 Hne1 Hname Hne Hws2) as Hdecl. fold decl in Hdecl.
  assert (forall before, TypeRegex.lineStart before = true ->
            TypeRegex.typeMatchesFrom before decl
            = (false, name) :: TypeRegex.typeMatchesFrom (Some "="%char) rest)
    as Hlocal.
  { intros before Hbefore. apply TypeRegexFacts.typeMatchesFrom_match.
    unfold TypeRegex.typeRegex_exec. rewrite Hbefore.
    unfold TypeRegex.exportOrType. rewrite Hdecl.
    assert (JS.dropPrefix "export" decl = None) as ->; [|done].
    unfold decl. done. }
  assert (forall before, TypeRegex.lineStart before = true ->
            TypeRegex.typeMatchesFrom before ("export" +:+ ws0 +:+ decl)
            = (true, name) :: TypeRegex.typeMatchesFrom (Some "="%char) rest)
    as Hexported.
  { intros before Hbefore. apply TypeRegexFacts.typeMatchesFrom_match.
    unfold TypeRegex.typeRegex_exec. rewrite Hbefore.
    unfold TypeRegex.exportOrType.
    assert (JS.dropPrefix "export" ("export" +:+ ws0 +:+ decl)
            = Some (ws0 +:+ decl)) as ->
      by (by apply RegexFacts.dropPrefix_spec).
    rewrite TypeRegexFacts.skipSpaces1_app; [|done..].
    by rewrite Hdecl. }
  split; [by apply Hlocal|]. split; [by apply Hexported|].
  unfold warnOnTypeDefinitions.
  rewrite (Hlocal None eq_refl), (Hexported None eq_refl). done.
Qed.

(** ** The builder as a whole *)

Section BuilderWhole.
Context {np : NodePath} (fs : gmap string node) (baseDir : string).

Local Abbreviation res := (path_resolve baseDir).

(** X8.  With fuel beyond the number of files, the build returns a table
    exactly when every file the entry reaches, the entry included, can be
    read and has all its import literals resolved, and no cycle of imports
    can be reached from the entry. *)
Theorem build_succeeds_iff fuel entryFile :
  size fs < fuel ->
  (exists transformedEntry st,
      buildTable fs baseDir fuel entryFile = Some (Ok (transformedEntry, st)))
  <-> wellFormedTree fs baseDir entryFile
      /\ ~ cycleReachable fs baseDir entryFile.
Proof.
  intros Hfuel. split.
  - intros (t & st & Hbuild). split; [|by eapply buildTable_acyclic].
    intros p Hp.
    destruct (buildTable_sound _ _ _ _ _ _ Hbuild)
      as (content & imports & Hread & Hparse & _).
    destruct (buildTable_visited _ _ _ _ _ _ Hbuild) as [Hpost Hall].
    apply rtc_tc in Hp as [<- |Hp].
    + rewrite (depsOf_entry _ _ _ _ _ _ Hread Hparse). by eexists.
    + eapply Postordered_depsOf; [done | by apply Hall].
  - intros [Hwf Hcycle].
    destruct (buildTable_terminates fs baseDir fuel entryFile Hfuel)
      as [[[t st]|e] Hbuild]; [by exists t, st|].
    destruct (buildTable_throws _ _ _ _ _ Hwf Hbuild)
      as (m & from & _ & -> & _).
    by apply buildTable_circular in Hbuild.
Qed.

(** *** Where an exception comes from *)

Lemma importsOf_edge p imports name :
  importsOf fs baseDir p = Some imports -> name ∈ imports ->
  edge fs baseDir p (res name).
Proof.
  intros Himports Hname. exists (res <$> imports). split.
  - unfold depsOf. by rewrite Himports.
  - by apply list_elem_of_fmap_2.
Qed.

Lemma Origin_step a b e :
  edge fs baseDir a b -> Origin fs baseDir b e -> Origin fs baseDir a e.
Proof.
  intros Hedge [p m Hp Hread|p c lit ref Hp Hread Hparse|from imports m Hp Hi Hm Hc].
  - apply Origin_read; [by eapply rtc_l | done].
  - eapply Origin_resolve; [by eapply rtc_l | done..].
  - eapply Origin_cycle; [by eapply rtc_l | done..].
Qed.

Lemma loadModule_error fuel name stack previousPath st e :
  (forall q, q ∈ stack -> rtc (edge fs baseDir) q previousPath) ->
  (exists imports, importsOf fs baseDir previousPath = Some imports
                   /\ name ∈ imports) ->
  loadModule fs baseDir fuel name stack previousPath st = Some (Throw e) ->
  Origin fs baseDir previousPath e.
Proof.
  revert name stack previousPath st.
  induction fuel as [|fuel IH];
    intros name stack previousPath st Hstack (imports & Himports & Hname);
    [done|].
  pose proof (importsOf_edge _ _ _ Himports Hname) as Hedge.
  cbn [loadModule]. unfold JS.includes, JS.Set_has.
  case_bool_decide as Hin.
  { intros [= <-]. eapply Origin_cycle; [done | done | done | by apply Hstack]. }
  case_bool_decide as Hvisited; [done|].
  destruct (readFileSync fs (res name)) as [luaContent|m] eqn:Hread.
  2:{ intros [= <-]. apply Origin_read; [by apply rtc_once | done]. }
  destruct (parseAndTransform fs baseDir luaContent (res name))
    as [[newContent subModules]|e'] eqn:Hparse.
  2:{ intros [= <-].
      destruct (parseAndTransform_throws _ _ _ _ _ Hparse) as (lit & ref & ->).
      eapply Origin_resolve; [by apply rtc_once | done..]. }
  assert (importsOf fs baseDir (res name) = Some subModules) as Hsubs
    by (unfold importsOf; by rewrite Hread, Hparse).
  assert (forall q, q ∈ JS.push stack (res name) ->
                    rtc (edge fs baseDir) q (res name)) as Hstack1.
  { intros q [Hq| ->%list_elem_of_singleton]%elem_of_app; [|done].
    eapply rtc_r; [by apply Hstack | done]. }
  assert (forall subs st2,
            (forall s, s ∈ subs -> s ∈ subModules) ->
            forEach (fun subModule stk s =>
                       loadModule fs baseDir fuel subModule stk (res name) s)
              subs (JS.push stack (res name)) st2 = Some (Throw e) ->
            Origin fs baseDir (res name) e) as Hloop.
  { induction subs as [|sub subs IHsubs]; intros st2 Hall; cbn; [done|].
    destruct (loadModule fs baseDir fuel sub (JS.push stack (res name))
                (res name) st2) as [[[stack2 st3]|e']|] eqn:Hsub; [| |done].
    - apply loadModule_sound in Hsub as [-> _].
      apply IHsubs. intros s Hs. apply Hall. by right.
    - intros [= ->]. eapply IH; [done| |done].
      exists subModules. split; [done|]. apply Hall. left. }
  destruct (forEach _ subModules _ _) as [[[stack2 st3]|e']|] eqn:Hrun;
    [done| |done].
  intros [= ->]. apply (Origin_step _ _ _ Hedge). by eapply Hloop.
Qed.

(** X9.  Every exception of a build is accounted for by the files the entry
    reaches.  An [IoError] names a file that cannot be read and carries the
    message of the file system; a [ModuleNotFound] is thrown by the
    transformer for the text of a reached file; a [CircularImport] names a
    module and the reached file whose import of that module closes a cycle:
    the module reaches the file. *)
Theorem build_error_origin fuel entryFile e :
  buildTable fs baseDir fuel entryFile = Some (Throw e) ->
  Origin fs baseDir (path_join baseDir entryFile) e.
Proof.
  unfold buildTable.
  destruct (readFileSync fs _) as [entryContent|m] eqn:Hread.
  2:{ intros [= <-]. by apply Origin_read. }
  destruct (parseAndTransform fs baseDir entryContent _)
    as [[t imports]|e'] eqn:Hparse.
  2:{ intros [= <-].
      destruct (parseAndTransform_throws _ _ _ _ _ Hparse) as (lit & ref & ->).
      by eapply Origin_resolve. }
  assert (importsOf fs baseDir (path_join baseDir entryFile) = Some imports)
    as Himports by (unfold importsOf; by rewrite Hread, Hparse).
  assert (forall names st,
            (forall n, n ∈ names -> n ∈ imports) ->
            match
              loadEntryImports fs baseDir fuel names
                (path_join baseDir entryFile) st
            with
            | Some (Ok st') => Some (Ok (t, st'))
            | Some (Throw e0) => Some (Throw e0)
            | None => None
            end = Some (Throw e) ->
            Origin fs baseDir (path_join baseDir entryFile) e) as Hloop.
  { induction names as [|name names IH]; intros st Hall; cbn; [done|].
    destruct (loadModule fs baseDir fuel name [] _ st)
      as [[[stack1 st1]|e']|] eqn:Hname; [| |done].
    - apply IH. intros n Hn. apply Hall. by right.
    - intros [= ->]. eapply loadModule_error; [|
        exists imports; split; [done | apply Hall; left] | done].
      by intros q ?%elem_of_nil. }
  by apply Hloop.
Qed.

(** *** What the table holds *)

(** X10.  In the table of a build that returns, the text stored under a key
    is the rewritten text of the file that the key names under the base
    directory, as the transformer gives it for that file. *)
Theorem table_content fuel entryFile transformedEntry st k v :
  buildTable fs baseDir fuel entryFile = Some (Ok (transformedEntry, st)) ->
  (k, v) ∈ modules st ->
  exists content subModules,
    readFileSync fs (res k) = inl content
    /\ parseAndTransform fs baseDir content (res k) = Ok (v, subModules).
Proof.
  intros Hbuild.
  destruct (buildTable_sound _ _ _ _ _ _ Hbuild)
    as (content & imports & _ & _ & Hloads).
  revert k v. eapply (proj2 (Loads_content fs baseDir)); [done|].
  by intros k v ?%elem_of_nil.
Qed.

(** *** What a returning call leaves behind *)

Lemma Object_keys_set_prefix o k v :
  JS.Object_keys o `prefix_of` JS.Object_keys (JS.Object_set o k v).
Proof.
  destruct (decide (k ∈ JS.Object_keys o)) as [Hin|Hnot].
  - by rewrite Object_keys_set_present.
  - rewrite Object_keys_set_fresh by done. by apply prefix_app_r.
Qed.

Lemma Loads_grows :
  (forall name stack st st',
      Loads fs baseDir name stack st st' ->
      reads st `prefix_of` reads st'
      /\ JS.Object_keys (modules st) `prefix_of` JS.Object_keys (modules st'))
  /\ (forall names stack st st',
        LoadsAll fs baseDir names stack st st' ->
        reads st `prefix_of` reads st'
        /\ JS.Object_keys (modules st) `prefix_of` JS.Object_keys (modules st')).
Proof.
  apply Loads_LoadsAll_ind.
  - done.
  - intros name stack st luaContent newContent subModules st' _ _ _ _ _
      [Hreads Hkeys].
    cbn [reads modules addVisited setModule logRead] in *. split.
    + etrans; [|done]. by apply prefix_app_r.
    + etrans; [|done]. apply Object_keys_set_prefix.
  - done.
  - intros name names stack st st1 st2 _ [Hr1 Hk1] _ [Hr2 Hk2].
    split; by etrans.
Qed.

(** X12.  A call of [loadModule] that returns leaves the stack as it found
    it; the module was not on the stack, and it is visited afterwards;
    [visited], the files read and the keys of the table have only grown at
    their ends: nothing is removed and the order of what was there is
    kept. *)
Theorem loadModule_returns fuel name stack previousPath st stack' st' :
  loadModule fs baseDir fuel name stack previousPath st
  = Some (Ok (stack', st')) ->
  stack' = stack
  /\ (res name ∉ stack)
  /\ res name ∈ visited st'
  /\ visited st `prefix_of` visited st'
  /\ reads st `prefix_of` reads st'
  /\ JS.Object_keys (modules st) `prefix_of` JS.Object_keys (modules st').
Proof.
  intros [-> Hloads]%loadModule_sound. split; [done|].
  destruct (proj1 (Loads_visited_grows fs baseDir) _ _ _ _ Hloads)
    as ((new & Hnew & _) & Hin & _).
  destruct (proj1 Loads_grows _ _ _ _ Hloads) as [Hreads Hkeys].
  split; [by inversion Hloads|]. split; [done|].
  split; [by exists new | done].
Qed.

End BuilderWhole.

(** ** The command line *)

Section CommandLine.
Context {np : NodePath}.




End CommandLine.

(** ** The further properties on the example trees *)

Lemma parseAndTransform_no_require_witness :
  contains "require" "return { answer = 42 }" = false
  /\ parseAndTransform (np := Examples.P) Examples.simple Examples.base
       "return { answer = 42 }" "/proj/src/util.lua"
     = Ok ("return { answer = 42 }", []).
Proof.
  split; [reflexivity|].
  apply (parseAndTransform_no_require (np := Examples.P)). reflexivity.
Defined.

(** The entry of the diamond: two literals, two names, in the order of the
    text. *)
Lemma parseAndTransform_Ok_witness :
  let text := "local b = require('./b') local c = require('./c')" in
  literals (Regex.scan text) = [ "./b"; "./c" ]
  /\ Forall2
       (fun lit name =>
          resolveModulePath (np := Examples.P) Examples.diamond Examples.base
            "/proj/src/a.lua" lit = Ok name)
       (literals (Regex.scan text)) [ "b.lua"; "c.luau" ]
  /\ Examples.diamondEntry = render (Regex.scan text) [ "b.lua"; "c.luau" ].
Proof.
  intros text. split; [vm_compute; reflexivity|].
  apply (proj1 (parseAndTransform_Ok (np := Examples.P) Examples.diamond
                  Examples.base text "/proj/src/a.lua" Examples.diamondEntry
                  [ "b.lua"; "c.luau" ])).
  vm_compute. reflexivity.
Defined.

(** The module m of the broken tree: its only literal does not resolve. *)
Lemma parseAndTransform_Throw_witness :
  exists pre lit post names,
    literals (Regex.scan "require('./nowhere')") = pre ++ lit :: post
    /\ Forall2
         (fun lit name =>
            resolveModulePath (np := Examples.P) Examples.cyclicBroken
              Examples.base "/proj/src/m.lua" lit = Ok name)
         pre names
    /\ resolveModulePath (np := Examples.P) Examples.cyclicBroken
         Examples.base "/proj/src/m.lua" lit
       = Throw (ModuleNotFound "./nowhere" "/proj/src/m.lua").
Proof.
  apply (proj1 (parseAndTransform_Throw (np := Examples.P)
                  Examples.cyclicBroken Examples.base "require('./nowhere')"
                  "/proj/src/m.lua"
                  (ModuleNotFound "./nowhere" "/proj/src/m.lua"))).
  vm_compute. reflexivity.
Defined.

(** A space between the closing quote and the closing parenthesis: the
    module exists, and yet nothing is resolved. *)
Lemma trailing_text_not_literal_witness :
  existsSync Examples.simple "/proj/src/util.lua" = true
  /\ parseAndTransform (np := Examples.P) Examples.simple Examples.base
       ("require" +:+ EmptyString
        +:+ String "("%char
              (EmptyString
               +:+ String "034"%char ("./util" +:+ String "034"%char " ")
               +:+ String ")"%char EmptyString))
       "/proj/src/main.luau"
     = Ok ("import(" +:+ DQ +:+ "./util" +:+ DQ +:+ " )", []).
Proof.
  split; [vm_compute; reflexivity|].
  destruct (trailing_text_not_literal (np := Examples.P) Examples.simple
              Examples.base "/proj/src/main.luau" None EmptyString EmptyString
              "034"%char "./util" "034"%char " " EmptyString []
              eq_refl eq_refl eq_refl eq_refl eq_refl eq_refl eq_refl
              ltac:(discriminate)) as (_ & _ & Hwhole).
  rewrite Hwhole. reflexivity.
Defined.

Lemma warnOnTypeDefinitions_silent_witness :
  contains "type" "return {}" = false
  /\ warnOnTypeDefinitions "return {}" "lib/d.lua" = [].
Proof.
  split; [reflexivity|]. apply warnOnTypeDefinitions_silent. reflexivity.
Defined.

Lemma warnOnTypeDefinitions_lines_witness :
  warnOnTypeDefinitions typedText "types.lua"
  = [ warnLine "types.lua" (true, "Point");
      warnLine "types.lua" (false, "Alias") ]
  /\ exists isExport name,
       warnLine "types.lua" (false, "Alias")
       = warnLine "types.lua" (isExport, name)
       /\ name <> EmptyString
       /\ allChars JS.isWordChar name = true
       /\ contains "types.lua" (warnLine "types.lua" (false, "Alias")) = true.
Proof.
  split; [vm_compute; reflexivity|].
  apply (warnOnTypeDefinitions_lines typedText "types.lua").
  vm_compute. apply list_elem_of_further, list_elem_of_here.
Defined.

Lemma warnOnTypeDefinitions_declaration_witness :
  let decl :=
    "type" +:+ " " +:+ "Point" +:+ " " +:+ String "="%char " { x: number }" in
  warnOnTypeDefinitions decl "types.lua"
  = [ warnLine "types.lua" (false, "Point") ]
  /\ warnOnTypeDefinitions ("export" +:+ LF +:+ decl) "types.lua"
     = [ warnLine "types.lua" (true, "Point") ].
Proof.
  destruct (warnOnTypeDefinitions_declaration None LF " " "Point" " "
              " { x: number }" "types.lua" eq_refl eq_refl ltac:(discriminate)
              eq_refl ltac:(discriminate) eq_refl ltac:(discriminate) eq_refl)
    as (_ & _ & Hlocal & Hexported).
  split; [rewrite Hlocal | rewrite Hexported]; reflexivity.
Defined.

Lemma build_succeeds_iff_witness :
  size Examples.simple < 3
  /\ wellFormedTree (np := Examples.P) Examples.simple Examples.base "main.luau"
  /\ ~ cycleReachable (np := Examples.P) Examples.simple Examples.base
         "main.luau".
Proof.
  assert (size Examples.simple < 3) as Hsize by (vm_compute; lia).
  split; [exact Hsize|].
  apply (proj1 (build_succeeds_iff (np := Examples.P) Examples.simple
                  Examples.base 3 "main.luau" Hsize)).
  eexists _, _. vm_compute. reflexivity.
Defined.

(** The cyclic tree: the error names a and the file c, which imports a
    and is reached from a. *)
Lemma build_error_origin_witness :
  buildTable (np := Examples.P) Examples.cyclic Examples.base 5 "main.lua"
  = Some (Throw (CircularImport "a.lua" "/proj/src/c.lua"))
  /\ Origin (np := Examples.P) Examples.cyclic Examples.base
       (path_join (NodePath := Examples.P) Examples.base "main.lua")
       (CircularImport "a.lua" "/proj/src/c.lua").
Proof.
  assert (buildTable (np := Examples.P) Examples.cyclic Examples.base 5
            "main.lua"
          = Some (Throw (CircularImport "a.lua" "/proj/src/c.lua"))) as Hbuild
    by (vm_compute; reflexivity).
  split; [exact Hbuild|].
  exact (build_error_origin (np := Examples.P) Examples.cyclic Examples.base 5
           "main.lua" _ Hbuild).
Defined.

Lemma table_content_witness :
  exists content subModules,
    readFileSync Examples.diamond
      (path_resolve (NodePath := Examples.P) Examples.base "c.luau")
    = inl content
    /\ parseAndTransform (np := Examples.P) Examples.diamond Examples.base
         content (path_resolve (NodePath := Examples.P) Examples.base "c.luau")
       = Ok ("return import(" +:+ DQ +:+ "lib/d.lua" +:+ DQ +:+ ")",
             subModules).
Proof.
  apply (table_content (np := Examples.P) Examples.diamond Examples.base 5
           "a.lua" Examples.diamondEntry Examples.diamondState).
  - vm_compute. reflexivity.
  - cbn [modules Examples.diamondState].
    apply list_elem_of_further, list_elem_of_further, list_elem_of_here.
Defined.


(** The first import of the entry of the diamond. *)
Lemma loadModule_returns_witness :
  let st' :=
    {| visited := [ "/proj/src/lib/d.lua"; "/proj/src/b.lua" ];
       modules :=
         [ ("b.lua", "return import(" +:+ DQ +:+ "lib/d.lua" +:+ DQ +:+ ")");
           ("lib/d.lua", "return {}") ];
       reads := [ "/proj/src/a.lua"; "/proj/src/b.lua";
                  "/proj/src/lib/d.lua" ] |} in
  loadModule (np := Examples.P) Examples.diamond Examples.base 5 "b.lua" []
    "/proj/src/a.lua" (logRead "/proj/src/a.lua" initialState)
  = Some (Ok ([], st'))
  /\ path_resolve (NodePath := Examples.P) Examples.base "b.lua" ∈ visited st'
  /\ [ "/proj/src/a.lua" ] `prefix_of` reads st'.
Proof.
  intros st'.
  assert (loadModule (np := Examples.P) Examples.diamond Examples.base 5
            "b.lua" [] "/proj/src/a.lua"
            (logRead "/proj/src/a.lua" initialState)
          = Some (Ok ([], st'))) as Hrun by (vm_compute; reflexivity).
  split; [exact Hrun|].
  destruct (loadModule_returns (np := Examples.P) _ _ _ _ _ _ _ _ _ Hrun)
    as (_ & _ & Hin & _ & Hreads & _).
  split; [exact Hin | exact Hreads].
Defined.
